(** * Verification of the casbin enforcer wrapper (pkg/user/casbin/rbac.go)

    The development embeds the batch evaluator, the per-identity lock table,
    the result cache, the single-decision evaluator and the path-segment
    wildcard matcher of [rbac.go] and settles the properties stated about
    them.

    Conventions.
    - Go strings are byte sequences: they are Rocq [string]s (lists of
      [ascii]).
    - Go's [int] is the 64-bit signed integer; it is a [Z] and every
      operation that can leave the range wraps explicitly ([wrap64]).  The
      counter of a wait group is a signed 32-bit integer ([wrap32]): a
      batch size outside that range panics, hangs or returns according to
      its low 32 bits.
    - Go maps are [gmap]s.  The mapping a batch call returns and the one it
      leaves in the cache are one Go map; the model records its value when
      the call returns, which is the value [storeCacheData] stores.
    - A run is sequential: the workers of one batch are run one after the
      other in shard order.  They only ever write the decision of the engine
      for an item, so the merged mapping does not depend on their
      interleaving ([merge_order_irrelevant]).
    - Time is not modelled: latency metrics and logging are dropped, and a
      cache entry never expires during a run. *)

From Stdlib Require Import ZArith Lia Ascii.
From stdpp Require Import base option list gmap strings pretty.

Local Open Scope Z_scope.
Set Warnings "-clear-no-such-hyp".

(** ** The parts of Go's standard library the source calls *)

Module GoStrings.

(** [len(s)] *)
Definition len (s : string) : Z := Z.of_nat (String.length s).

(** [s[:j]] for [0 <= j <= len(s)] (the source only slices in range). *)
Definition slice_to (s : string) (j : Z) : string :=
  String.substring 0 (Z.to_nat j) s.

(** [strings.ToLower] restricted to ASCII text: bytes ['A'..'Z'] are mapped
    to ['a'..'z'], every other byte is kept. *)
Definition lower_byte (c : ascii) : ascii :=
  let n := Ascii.nat_of_ascii c in
  if ((65 <=? n)%nat && (n <=? 90)%nat)%bool
  then Ascii.ascii_of_nat (n + 32) else c.

Fixpoint ToLower (s : string) : string :=
  match s with
  | EmptyString => EmptyString
  | String c s' => String (lower_byte c) (ToLower s')
  end.

(** [strings.Split(s, sep)] for a one-byte separator: the substrings between
    the occurrences of [sep]; one more substring than occurrences, so the
    result is never empty. *)
Fixpoint Split (s : string) (sep : ascii) : list string :=
  match s with
  | EmptyString => [EmptyString]
  | String c s' =>
      if Ascii.eqb c sep then EmptyString :: Split s' sep
      else match Split s' sep with
           | h :: t => String c h :: t
           | [] => [String c EmptyString]
           end
  end.

(** [strings.Index(s, sub)] for a one-byte [sub]: the index of its first
    occurrence, [-1] when there is none. *)
Fixpoint Index (s : string) (c : ascii) : Z :=
  match s with
  | EmptyString => -1
  | String a s' =>
      if Ascii.eqb a c then 0
      else let r := Index s' c in if r =? -1 then -1 else r + 1
  end.

(** [strings.Join(elems, sep)] *)
Fixpoint Join (elems : list string) (sep : string) : string :=
  match elems with
  | [] => EmptyString
  | [x] => x
  | x :: rest => x +:+ sep +:+ Join rest sep
  end.

(** The 64-bit [int]. *)
Definition min_int : Z := - 2 ^ 63.
Definition max_int : Z := 2 ^ 63 - 1.
Definition wrap64 (z : Z) : Z := (z + 2 ^ 63) mod 2 ^ 64 - 2 ^ 63.

(** The counter of a [sync.WaitGroup] is a signed 32-bit integer:
    [wg.Add(delta)] adds the low 32 bits of [delta] to it. *)
Definition wrap32 (z : Z) : Z := (z + 2 ^ 31) mod 2 ^ 32 - 2 ^ 31.
Arguments wrap32 : simpl never.

(** [strconv.Atoi]: an optional sign followed by one or more decimal digits;
    [None] stands for a non-nil error (bad syntax or out of range). *)
Definition digit_of (c : ascii) : option Z :=
  let n := Ascii.nat_of_ascii c in
  if ((48 <=? n)%nat && (n <=? 57)%nat)%bool then Some (Z.of_nat n - 48) else None.

Fixpoint digits_value (acc : Z) (s : string) : option Z :=
  match s with
  | EmptyString => Some acc
  | String c s' =>
      match digit_of c with
      | Some d => digits_value (10 * acc + d) s'
      | None => None
      end
  end.

Definition unsigned_value (s : string) : option Z :=
  match s with
  | EmptyString => None
  | _ => digits_value 0 s
  end.

Definition in_range (z : Z) : option Z :=
  if ((min_int <=? z) && (z <=? max_int))%bool then Some z else None.

Definition Atoi (s : string) : option Z :=
  match s with
  | String "+"%char s' => v ← unsigned_value s'; in_range v
  | String "-"%char s' => v ← unsigned_value s'; in_range (- v)
  | _ => v ← unsigned_value s; in_range v
  end.

End GoStrings.

(** ** The wildcard matcher *)

Module Matcher.
Import GoStrings.

(** The body of the [for i, key2Val := range key2Vals] loop of
    [MatchKeyByPart], [key1Vals[i]] being the head of the first list. *)
Definition match_part (key1Val key2Val : string) : bool :=
  if (String.eqb key2Val "" || String.eqb key1Val "")%bool then false
  else
    let j := Index key2Val "*" in
    if j =? -1 then String.eqb key1Val key2Val
    else if len key1Val >? j
         then String.eqb (slice_to key1Val j) (slice_to key2Val j)
         else String.eqb key1Val (slice_to key2Val j).

Fixpoint match_parts (key1Vals key2Vals : list string) : bool :=
  match key2Vals with
  | [] => true
  | key2Val :: rest2 =>
      match key1Vals with
      | [] => false
      | key1Val :: rest1 =>
          if match_part key1Val key2Val then match_parts rest1 rest2 else false
      end
  end.

Definition MatchKeyByPart (key1 key2 : string) : bool :=
  if String.eqb key2 "*" then true
  else
    let key1Vals := Split key1 "/" in
    let key2Vals := Split key2 "/" in
    if (negb (length key1Vals =? length key2Vals)%nat
        || (length key1Vals =? 0)%nat)%bool
    then false
    else match_parts key1Vals key2Vals.

(** The matcher as the specification words it. *)

(** [q] has its first ["*"] at index [j]. *)
Definition first_star_at (q : string) (j : nat) : Prop :=
  String.get j q = Some "*"%char ∧
  ∀ i, (i < j)%nat → String.get i q ≠ Some "*"%char.

Definition no_star (q : string) : Prop :=
  ∀ i, String.get i q ≠ Some "*"%char.

Definition segment_pair_ok (p q : string) : Prop :=
  (no_star q → p = q) ∧
  (∀ j, first_star_at q j → (String.length p > j)%nat →
        String.substring 0 j p = String.substring 0 j q) ∧
  (∀ j, first_star_at q j → (String.length p <= j)%nat →
        p = String.substring 0 j q).

Definition matches_spec (path pattern : string) : Prop :=
  pattern = "*" ∨
  (length (Split path "/") = length (Split pattern "/") ∧
   Forall (λ s, s ≠ "") (Split path "/") ∧
   Forall (λ s, s ≠ "") (Split pattern "/") ∧
   Forall2 segment_pair_ok (Split path "/") (Split pattern "/")).

End Matcher.

(** ** The enforcer *)

Module Enforcer.
Import GoStrings.

(** Values of type [interface{}] handed to the enforcer: the dynamic types
    that occur in requests. *)
Inductive rval :=
| RString (s : string)
| RInt (n : Z)
| RBool (b : bool).

(** A call either returns or panics. *)
Inductive outcome (A : Type) :=
| Return (a : A)
| Panic.
Arguments Return {A} a.
Arguments Panic {A}.

(** [codes.Code] and the error built by [status.Error]. *)
Inductive Code := OK | PermissionDenied.

Record StatusError := { code : Code; message : string }.

(** What the wrapper receives from outside the repository: the session
    manager and the claims accessors of the authenticator, the policy engine
    ([casbin.Enforcer.Enforce], [None] when it panics), and the package
    constant [EnforcerBatchDefaultSize], declared outside [rbac.go]. *)
Class Collaborators := {
  Claims : Type;
  MapClaimsT : Type;
  VerifyToken : string → option Claims;
  MapClaims : Claims → option MapClaimsT;
  GetField : MapClaimsT → string → string;
  engine : list rval → option bool;
  EnforcerBatchDefaultSize : Z
}.

(** Modelled from the spec: [handlePanic], deferred around the engine call,
    is declared outside [rbac.go].  The specification describes it as the
    boundary that "converts any internal fault into a denial result": the
    panic is recovered and the function returns the zero value [false]. *)
Definition handlePanic (r : option bool) : bool :=
  match r with
  | Some enforcedStatus => enforcedStatus
  | None => false
  end.

(** [fmt.Sprintf("%s", rval)] *)
Definition Sprintf_s (v : rval) : string :=
  match v with
  | RString s => s
  | RInt n => "%!s(int=" +:+ pretty n +:+ ")"
  | RBool b => "%!s(bool=" +:+ (if b then "true" else "false") +:+ ")"
  end.

(** One run of [enforce]: the argument lists the policy engine was called
    with, the caller's argument slice afterwards ([enforce] overwrites
    [rvals[0]] in place) and the outcome. *)
Record enforce_run := {
  engine_calls : list (list rval);
  rvals_after : list rval;
  result : outcome bool
}.

Section WithCollaborators.
Context `{Collaborators}.

Definition enforce (rvals : list rval) : enforce_run :=
  match rvals with
  | [] => {| engine_calls := []; rvals_after := rvals; result := Return false |}
  | RString token :: rest =>
      match VerifyToken token with
      | None =>
          {| engine_calls := []; rvals_after := rvals; result := Return false |}
      | Some claims =>
          match MapClaims claims with
          | None =>
              {| engine_calls := []; rvals_after := rvals;
                 result := Return false |}
          | Some mapClaims =>
              let email := GetField mapClaims "email" in
              let sub := GetField mapClaims "sub" in
              let email :=
                if (String.eqb email ""
                    && (String.eqb sub "admin" || String.eqb sub "admin:login"))%bool
                then "admin" else email in
              let rvals' := RString (ToLower email) :: rest in
              {| engine_calls := [rvals']; rvals_after := rvals';
                 result := Return (handlePanic (engine rvals')) |}
          end
      end
  | _ :: _ =>
      (* rvals[0].(string) on a value that is not a string *)
      {| engine_calls := []; rvals_after := rvals; result := Panic |}
  end.

(** The identity [enforce] substitutes, as the specification words it. *)
Definition normalized_identity (mapClaims : MapClaimsT) : string :=
  let email := GetField mapClaims "email" in
  let sub := GetField mapClaims "sub" in
  ToLower (if decide (email = "" ∧ (sub = "admin" ∨ sub = "admin:login"))
           then "admin" else email).

Definition enforceByEmail (rvals : list rval) : bool :=
  match rvals with
  | [] => false
  | _ => handlePanic (engine rvals)
  end.

Definition Enforce (rvals : list rval) : enforce_run := enforce rvals.

Definition EnforceByEmail (rvals : list rval) : bool := enforceByEmail rvals.

Definition EnforceErr (rvals : list rval) : outcome (option StatusError) :=
  let run := Enforce rvals in
  match result run with
  | Panic => Panic
  | Return true => Return None
  | Return false =>
      let errMsg := "permission denied" in
      let errMsg :=
        if (0 <? length rvals)%nat
        then errMsg +:+ ": " +:+ Join (Sprintf_s <$> tail (rvals_after run)) ", "
        else errMsg in
      Return (Some {| code := PermissionDenied; message := errMsg |})
  end.

(** *** The lock table and the result cache *)

(** [EnforcerImpl]: the table of per-identity mutexes (a mutex is its
    "locked" flag) and the cache, [None] when caching is disabled.  A cache
    value is the [map[string]map[string]bool] stored under an identity. *)
Record EnforcerImpl := {
  lock : gmap string bool;
  Cache : option (gmap string (gmap string (gmap string bool)))
}.

(** [strconv.ParseBool] *)
Definition ParseBool (s : string) : option bool :=
  if bool_decide (s ∈ ["1"; "t"; "T"; "TRUE"; "true"; "True"]) then Some true
  else if bool_decide (s ∈ ["0"; "f"; "F"; "FALSE"; "false"; "False"])
       then Some false
       else None.

(** [enableEnforcerCache] is [os.Getenv("ENFORCER_CACHE")].  The expiry read
    from [ENFORCER_CACHE_EXPIRATION_IN_SEC] only sets the time to live of
    the new cache. *)
Definition checkCacheEnabled (enableEnforcerCache : string)
  : option (gmap string (gmap string (gmap string bool))) :=
  let enableEnforcerCacheVal :=
    match ParseBool enableEnforcerCache with
    | Some b => b
    | None => false
    end in
  if enableEnforcerCacheVal then Some ∅ else None.

Definition NewEnforcerImpl (enableEnforcerCache : string) : EnforcerImpl :=
  {| lock := ∅; Cache := checkCacheEnabled enableEnforcerCache |}.

Definition getCacheKey (resource action : string) : string :=
  resource +:+ "$$" +:+ action.

Definition getLockKey (emailId : string) : string := emailId.

(** Returns the table, with a fresh unlocked mutex added when the key had
    none, and the mutex found or created. *)
Definition getEnforcerCacheLock (e : EnforcerImpl) (emailId : string)
  : EnforcerImpl * bool :=
  match lock e !! getLockKey emailId with
  | Some enforcerCacheMutex => (e, enforcerCacheMutex)
  | None =>
      ({| lock := <[getLockKey emailId := false]> (lock e); Cache := Cache e |},
       false)
  end.

(** [mutex.Lock()] on the mutex of [emailId], when it is free. *)
Definition acquire (e : EnforcerImpl) (emailId : string) : EnforcerImpl :=
  {| lock := <[getLockKey emailId := true]> (lock e); Cache := Cache e |}.

(** [cacheMutex.Unlock()] followed by the removal of the handle. *)
Definition clearCacheLock (e : EnforcerImpl) (emailId : string) : EnforcerImpl :=
  let unlocked := <[getLockKey emailId := false]> (lock e) in
  {| lock := delete (getLockKey emailId) unlocked; Cache := Cache e |}.

(** The refresh of the entry's expiry on a hit stores the value it read. *)
Definition getCacheData (e : EnforcerImpl) (emailId resource action : string)
  : option (gmap string bool) :=
  match Cache e with
  | None => None
  | Some c =>
      match c !! emailId with
      | Some emailResult => emailResult !! getCacheKey resource action
      | None => None
      end
  end.

Definition storeCacheData (e : EnforcerImpl) (emailId resource action : string)
    (result : gmap string bool) : EnforcerImpl :=
  match Cache e with
  | None => e
  | Some c =>
      let emailResult := default ∅ (c !! emailId) in
      let emailResult := <[getCacheKey resource action := result]> emailResult in
      {| lock := lock e; Cache := Some (<[emailId := emailResult]> c) |}
  end.

(** *** The batch evaluator *)

(** [vals[startIndex:endIndex]]; [None] is the run-time panic of a slice
    expression out of range. *)
Definition slice (vals : list string) (startIndex endIndex : Z)
  : option (list string) :=
  if ((0 <=? startIndex) && (startIndex <=? endIndex)
      && (endIndex <=? Z.of_nat (length vals)))%bool
  then Some (take (Z.to_nat (endIndex - startIndex))
                  (drop (Z.to_nat startIndex) vals))
  else None.

(** The bounds computed in the body of the dispatch loop. *)
Definition shard_bounds (i totalSize batchSize : Z) : Z * Z :=
  let startIndex := Z.quot (wrap64 (i * totalSize)) batchSize in
  let endIndex := wrap64 (startIndex + Z.quot totalSize batchSize) in
  let endIndex := if endIndex >? totalSize then totalSize else endIndex in
  (startIndex, endIndex).

(** [for i := 0; i < batchSize; i++]: the item list handed to each worker,
    in the order of dispatch. *)
Definition dispatch (batchSize : Z) (vals : list string)
  : option (list (list string)) :=
  let totalSize := Z.of_nat (length vals) in
  mapM (λ i : nat,
          let '(startIndex, endIndex) :=
            shard_bounds (Z.of_nat i) totalSize batchSize in
          slice vals startIndex endIndex)
       (seq 0 (Z.to_nat batchSize)).

(** [EnforceByEmailInBatchSync]: the decisions of one worker, then their
    merge into the shared result. *)
Definition batchResult (emailId resource action : string) (vals : list string)
  : gmap string bool :=
  foldl (λ m item,
           <[item := EnforceByEmail [RString (ToLower emailId); RString resource;
                                     RString action; RString item]]> m)
        ∅ vals.

Definition EnforceByEmailInBatchSync (result : gmap string bool)
    (emailId resource action : string) (vals : list string) : gmap string bool :=
  batchResult emailId resource action vals ∪ result.

(** How a call of [EnforceByEmailInBatch] ends.  When it returns: the
    enforcer afterwards, the mapping returned, the items left after the
    cached ones were removed, and the item lists of the workers dispatched.
    When it panics: the lock table left by the deferred [clearCacheLock].
    [BatchBlocked]: the mutex of the identity is held and never released.
    [BatchHang]: [wg.Wait] never returns because the counter of the wait
    group stays positive; the lock table keeps the handle, locked.
    [BatchCrash]: the [wg.Done] of a worker drives the counter below zero
    and panics in the worker's goroutine, which ends the process. *)
Inductive batch_outcome :=
| BatchReturn (e' : EnforcerImpl) (result : gmap string bool)
              (remaining : list string) (workers : list (list string))
| BatchPanic (lock' : gmap string bool)
| BatchBlocked
| BatchHang (lock' : gmap string bool)
| BatchCrash.

(** [os.Getenv("ENFORCER_MAX_BATCH_SIZE")] is the argument
    [enforcerMaxBatchSize]. *)
Definition configuredBatchSize (enforcerMaxBatchSize : string) : Z :=
  match Atoi enforcerMaxBatchSize with
  | Some batchSize => batchSize
  | None => EnforcerBatchDefaultSize
  end.

Definition EnforceByEmailInBatch (enforcerMaxBatchSize : string)
    (e : EnforcerImpl) (emailId resource action : string) (vals : list string)
  : batch_outcome :=
  let batchSize := configuredBatchSize enforcerMaxBatchSize in
  let '(e, enforcerCacheMutex) := getEnforcerCacheLock e emailId in
  if enforcerCacheMutex then BatchBlocked
  else
    let e := acquire e emailId in
    let '(result, vals) :=
      match getCacheData e emailId resource action with
      | Some result =>
          (result, filter (λ item, result !! item = None) vals)
      | None => (∅, vals)
      end in
    let totalSize := Z.of_nat (length vals) in
    let batchSize := if batchSize >? totalSize then totalSize else batchSize in
    (* wg.Add(batchSize) panics when the counter it leaves is negative *)
    let counter := wrap32 batchSize in
    if counter <? 0
    then BatchPanic (lock (clearCacheLock e emailId))
    else
      match dispatch batchSize vals with
      | None => BatchPanic (lock (clearCacheLock e emailId))
      | Some workers =>
          (* every worker ends with wg.Done(); wg.Wait() returns once the
             counter is zero *)
          let counter := counter - Z.of_nat (length workers) in
          if counter <? 0 then BatchCrash
          else if 0 <? counter then BatchHang (lock e)
          else
            let result :=
              foldl (λ result shard,
                       EnforceByEmailInBatchSync result emailId resource action
                                                 shard)
                    result workers in
            let e := storeCacheData e emailId resource action result in
            BatchReturn (clearCacheLock e emailId) result vals workers
      end.

Inductive invalidate_outcome :=
| InvalidateReturn (e' : EnforcerImpl) (r : bool)
| InvalidateBlocked.

Definition InvalidateCache (e : EnforcerImpl) (emailId : string)
  : invalidate_outcome :=
  let '(e, cacheLock) := getEnforcerCacheLock e emailId in
  if cacheLock then InvalidateBlocked
  else
    let e := acquire e emailId in
    match Cache e with
    | Some c =>
        let e := {| lock := lock e; Cache := Some (delete emailId c) |} in
        InvalidateReturn (clearCacheLock e emailId) true
    | None => InvalidateReturn (clearCacheLock e emailId) false
    end.

Definition InvalidateCompleteCache (e : EnforcerImpl) : EnforcerImpl :=
  match Cache e with
  | Some _ => {| lock := lock e; Cache := Some ∅ |}
  | None => e
  end.

(** The enforcers met between calls in a sequential use: the one built by
    [NewEnforcerImpl], and the one left by any call that completed.  After
    a panic only the lock table is known. *)
Inductive reachable : EnforcerImpl → Prop :=
| reach_new enableEnforcerCache :
    reachable (NewEnforcerImpl enableEnforcerCache)
| reach_batch env e emailId resource action vals e' result remaining workers :
    reachable e →
    EnforceByEmailInBatch env e emailId resource action vals =
      BatchReturn e' result remaining workers →
    reachable e'
| reach_batch_panic env e emailId resource action vals lock' cache' :
    reachable e →
    EnforceByEmailInBatch env e emailId resource action vals = BatchPanic lock' →
    reachable {| lock := lock'; Cache := cache' |}
| reach_invalidate e emailId e' r :
    reachable e →
    InvalidateCache e emailId = InvalidateReturn e' r →
    reachable e'
| reach_invalidate_all e :
    reachable e → reachable (InvalidateCompleteCache e).

(** Every decision held in the cache is the decision of the policy engine
    for the lower-cased identity it is stored under, some resource and
    action with the cache key it is stored under, and the item. *)
Definition cache_sound (e : EnforcerImpl) : Prop :=
  ∀ c emailId emailResult key cached item b,
    Cache e = Some c →
    c !! emailId = Some emailResult →
    emailResult !! key = Some cached →
    cached !! item = Some b →
    ∃ resource action,
      getCacheKey resource action = key ∧
      b = EnforceByEmail [RString (ToLower emailId); RString resource;
                          RString action; RString item].

End WithCollaborators.

(** Sample collaborators for concrete runs: the token is the identity
    itself (["bad"] does not verify, ["noclaims"] has no claims), the field
    ["email"] is the token and ["sub"] is empty; a token starting with
    nothing, [""], is the administrative login.  The engine grants the items
    ["x"] and ["z"] and every request whose last argument is ["ok"]. *)
Definition sample_engine (rvals : list rval) : option bool :=
  match last rvals with
  | Some (RString "x") | Some (RString "z") | Some (RString "ok") => Some true
  | Some (RString "boom") => None
  | _ => Some false
  end.

Definition sample : Collaborators := {|
  Claims := string;
  MapClaimsT := string;
  VerifyToken := λ token, if String.eqb token "bad" then None else Some token;
  MapClaims := λ c, if String.eqb c "noclaims" then None else Some c;
  GetField := λ c field,
    if String.eqb field "email" then c
    else if String.eqb c "" then "admin:login" else "";
  engine := sample_engine;
  EnforcerBatchDefaultSize := 1
|}.

Definition cache_off : EnforcerImpl := {| lock := ∅; Cache := None |}.
Definition cache_on : EnforcerImpl := {| lock := ∅; Cache := Some ∅ |}.

(** The decisions of the sample engine for the items ["x"], ["y"], ["z"],
    and the enforcer that holds them cached for ["alice"], ["app"],
    ["view"]. *)
Definition xyz_decisions : gmap string bool :=
  {[ "x" := true; "y" := false; "z" := true ]}.

Definition alice_cached : EnforcerImpl :=
  {| lock := ∅;
     Cache := Some {[ "alice" := {[ "app$$view" := xyz_decisions ]} ]} |}.

(** The same decisions cached under ["alice"] and under ["Alice"], and
    the enforcer with the handle of ["alice"] held. *)
Definition alice_both_cached : EnforcerImpl :=
  {| lock := ∅;
     Cache := Some {[ "alice" := {[ "app$$view" := xyz_decisions ]};
                      "Alice" := {[ "app$$view" := xyz_decisions ]} ]} |}.

Definition alice_held : EnforcerImpl :=
  {| lock := {[ "alice" := true ]};
     Cache := Some {[ "alice" := {[ "app$$view" := xyz_decisions ]} ]} |}.

(** The same with a decision for a fourth item ["w"]. *)
Definition xyzw_decisions : gmap string bool :=
  <["w" := false]> xyz_decisions.

Definition alice_cached_w : EnforcerImpl :=
  {| lock := ∅;
     Cache := Some {[ "alice" := {[ "app$$view" := xyzw_decisions ]} ]} |}.

(** Decisions for the first four of five items, all denied by the sample
    engine. *)
Definition abcd_decisions : gmap string bool :=
  {[ "a" := false; "b" := false; "c" := false; "d" := false ]}.

End Enforcer.

Import GoStrings Matcher Enforcer.

(** * Properties *)

(** ** Library functions *)

Section StringFacts.

Lemma Index_range s c :
  Index s c = -1 ∨ (0 <= Index s c < len s).
Proof.
  unfold len. induction s as [|a s IH]; simpl; [by left|].
  destruct (Ascii.eqb a c); [right; lia|].
  destruct IH as [->| IH]; [by left|].
  destruct (Z.eqb_spec (Index s c) (-1)); [lia|right; lia].
Qed.

Lemma Index_absent s :
  Index s "*" = -1 → no_star s.
Proof.
  induction s as [|a s IH]; intros Hi i; simpl in *.
  - by destruct i.
  - destruct (Ascii.eqb_spec a "*"); [lia|].
    destruct (Z.eqb_spec (Index s "*") (-1)) as [Hs|Hs].
    + destruct i as [|i]; simpl; [congruence|by apply IH].
    + pose proof (Index_range s "*"). lia.
Qed.

Lemma Index_first s :
  0 <= Index s "*" → first_star_at s (Z.to_nat (Index s "*")).
Proof.
  induction s as [|a s IH]; simpl; [lia|].
  destruct (Ascii.eqb_spec a "*") as [->|Hne].
  - intros _. split; [done|]. simpl. lia.
  - destruct (Z.eqb_spec (Index s "*") (-1)) as [Hs|Hs]; [lia|].
    intros _. pose proof (Index_range s "*") as Hr.
    destruct IH as [Hget Hmin]; [lia|].
    replace (Z.to_nat (Index s "*" + 1)) with (S (Z.to_nat (Index s "*"))) by lia.
    split; [done|].
    intros [|i] Hi; simpl; [congruence|]. apply Hmin. lia.
Qed.

Lemma first_star_at_unique q j j' :
  first_star_at q j → first_star_at q j' → j = j'.
Proof.
  intros [Hj Hmin] [Hj' Hmin'].
  destruct (Nat.lt_trichotomy j j') as [Hlt|[->|Hlt]]; [|done|].
  - by destruct (Hmin' _ Hlt).
  - by destruct (Hmin _ Hlt).
Qed.

Lemma first_star_at_not_no_star q j :
  first_star_at q j → ¬ no_star q.
Proof. intros [Hj _] Hno. by destruct (Hno j). Qed.

(** [Split] inverts [Join] and no segment holds the separator. *)
Lemma Split_nonempty s c : Split s c ≠ [].
Proof. induction s as [|a s IH]; simpl; [done|]. by repeat case_match. Qed.

Lemma Join_Split s : Join (Split s "/") "/" = s.
Proof.
  induction s as [|a s IH]; [done|]. simpl.
  pose proof (Split_nonempty s "/") as Hne.
  destruct (Ascii.eqb_spec a "/") as [->|Hna].
  - destruct (Split s "/") as [|h t]; [done|]. simpl in *. by rewrite IH.
  - destruct (Split s "/") as [|h t]; [done|].
    destruct t; simpl in *; by rewrite <- IH.
Qed.

Lemma Split_segments s seg i :
  seg ∈ Split s "/" → String.get i seg ≠ Some "/"%char.
Proof.
  revert seg i. induction s as [|a s IH]; intros seg i; simpl.
  - intros ->%list_elem_of_singleton. by destruct i.
  - pose proof (Split_nonempty s "/") as Hne.
    destruct (Ascii.eqb_spec a "/") as [->|Hna].
    + intros [->|Hin]%elem_of_cons; [by destruct i|by apply IH].
    + destruct (Split s "/") as [|h t]; [done|].
      intros [->|Hin]%elem_of_cons.
      * destruct i as [|i]; simpl; [congruence|]. apply IH. by left.
      * apply IH. by right.
Qed.

End StringFacts.

(** ** The wildcard matcher *)

Section MatcherFacts.

Lemma match_part_spec p q :
  match_part p q = true ↔ p ≠ "" ∧ q ≠ "" ∧ segment_pair_ok p q.
Proof.
  unfold match_part, segment_pair_ok.
  destruct (String.eqb_spec q "") as [->|Hq]; simpl; [naive_solver|].
  destruct (String.eqb_spec p "") as [->|Hp]; simpl; [naive_solver|].
  pose proof (Index_range q "*") as Hr.
  destruct (Z.eqb_spec (Index q "*") (-1)) as [Hi|Hi].
  - pose proof (Index_absent q Hi) as Hno.
    rewrite String.eqb_eq. split.
    + intros ->. repeat split; try done;
        intros j Hj; by destruct (first_star_at_not_no_star _ _ Hj).
    + intros (_ & _ & Heq & _). by apply Heq.
  - assert (0 <= Index q "*") as Hnn by lia.
    pose proof (Index_first q Hnn) as Hfirst.
    unfold slice_to, len.
    destruct (Z.gtb_spec (Z.of_nat (String.length p)) (Index q "*")) as [Hlen|Hlen];
      rewrite String.eqb_eq.
    + split.
      * intros Heq. repeat split; try done.
        -- intros Hno. by destruct (first_star_at_not_no_star _ _ Hfirst).
        -- intros j Hj _. by rewrite (first_star_at_unique _ _ _ Hj Hfirst).
        -- intros j Hj Hle. rewrite (first_star_at_unique _ _ _ Hj Hfirst) in Hle. lia.
      * intros (_ & _ & _ & Hpre & _). apply Hpre; [done|lia].
    + split.
      * intros Heq. repeat split; try done.
        -- intros Hno. by destruct (first_star_at_not_no_star _ _ Hfirst).
        -- intros j Hj Hgt. rewrite (first_star_at_unique _ _ _ Hj Hfirst) in Hgt. lia.
        -- intros j Hj _. by rewrite (first_star_at_unique _ _ _ Hj Hfirst).
      * intros (_ & _ & _ & _ & Hwhole). apply Hwhole; [done|lia].
Qed.

Lemma match_parts_spec ps qs :
  length ps = length qs →
  match_parts ps qs = true ↔
    Forall (λ s, s ≠ "") ps ∧ Forall (λ s, s ≠ "") qs ∧
    Forall2 segment_pair_ok ps qs.
Proof.
  revert ps. induction qs as [|q qs IH]; intros [|p ps] Hlen; simplify_eq/=.
  - naive_solver.
  - rewrite !Forall_cons, Forall2_cons.
    destruct (match_part p q) eqn:Hm.
    + apply match_part_spec in Hm. rewrite IH by done. naive_solver.
    + split; [done|]. intros ((Hp & _) & (Hq & _) & Hok & _).
      assert (match_part p q = true) by (by apply match_part_spec).
      congruence.
Qed.

(** C3. [MatchKeyByPart path pattern] is true exactly when the pattern is
    ["*"], or both split on ["/"] into equally many segments, no segment is
    empty, and every pair of segments agrees: equal when the pattern segment
    has no ["*"], equal up to the first ["*"] (at index [j]) when the path
    segment is longer than [j], and the path segment equal to the prefix
    before the ["*"] otherwise.  The four sample evaluations are included. *)
Theorem MatchKeyByPart_spec :
  (∀ path pattern, MatchKeyByPart path pattern = true ↔ matches_spec path pattern) ∧
  MatchKeyByPart "a/b/c" "a/*/c" = true ∧
  MatchKeyByPart "a/b/c" "a/*/d" = false ∧
  MatchKeyByPart "a/b" "a/b/c" = false ∧
  MatchKeyByPart "a//c" "a/*/c" = false.
Proof.
  split; [|by vm_compute].
  intros path pattern. unfold MatchKeyByPart, matches_spec.
  destruct (String.eqb_spec pattern "*") as [->|Hstar]; [naive_solver|].
  destruct (Nat.eqb_spec (length (Split path "/")) (length (Split pattern "/")))
    as [Hlen|Hlen]; simpl.
  - destruct (Nat.eqb_spec (length (Split path "/")) 0) as [Hz|Hz].
    + pose proof (Split_nonempty path "/").
      by destruct (Split path "/").
    + rewrite match_parts_spec by done. naive_solver.
  - naive_solver.
Qed.

(** C9. The pattern ["*"] matches every path, the empty one and those with
    empty segments included: the test on the pattern comes first. *)
Theorem MatchKeyByPart_star_any_path :
  (∀ path, MatchKeyByPart path "*" = true) ∧
  MatchKeyByPart "" "*" = true ∧
  MatchKeyByPart "a//c" "*" = true ∧
  MatchKeyByPart "a//c" "a/*/c" = false.
Proof. repeat split. Qed.

End MatcherFacts.

(** ** The single-decision evaluator *)

Section EnforceFacts.
Context `{Collaborators}.

Lemma enforce_success token rest claims mapClaims :
  VerifyToken token = Some claims →
  MapClaims claims = Some mapClaims →
  enforce (RString token :: rest) =
    let rvals' := RString (normalized_identity mapClaims) :: rest in
    {| engine_calls := [rvals']; rvals_after := rvals';
       result := Return (handlePanic (engine rvals')) |}.
Proof.
  intros Hv Hm. unfold enforce, normalized_identity. rewrite Hv, Hm. simpl.
  destruct (String.eqb_spec (GetField mapClaims "email") "") as [He|He];
  destruct (String.eqb_spec (GetField mapClaims "sub") "admin") as [Hs|Hs];
  destruct (String.eqb_spec (GetField mapClaims "sub") "admin:login") as [Hl|Hl];
  simpl; case_decide; naive_solver.
Qed.

Lemma enforce_tail_unchanged rvals :
  tail (rvals_after (enforce rvals)) = tail rvals.
Proof.
  unfold enforce. destruct rvals as [|[token| |] rest]; try done.
  by repeat case_match.
Qed.

(** C5, amended. For an argument list that is empty or starts with a string,
    [Enforce] always returns (no panic reaches the caller); it returns false
    and leaves the policy engine uncalled when the list is empty, the token
    does not verify or the claims cannot be extracted; otherwise the engine
    is called once, its first argument replaced by the lower-cased email of
    the claims, ["admin"] standing in for an empty email whose [sub] is
    ["admin"] or ["admin:login"], and a panic of the engine is turned into
    false. *)
Theorem Enforce_string_token token rest :
  (result (Enforce []) = Return false ∧ engine_calls (Enforce []) = []) ∧
  (∃ b, result (Enforce (RString token :: rest)) = Return b) ∧
  (VerifyToken token = None →
     result (Enforce (RString token :: rest)) = Return false ∧
     engine_calls (Enforce (RString token :: rest)) = []) ∧
  (∀ claims, VerifyToken token = Some claims → MapClaims claims = None →
     result (Enforce (RString token :: rest)) = Return false ∧
     engine_calls (Enforce (RString token :: rest)) = []) ∧
  (∀ claims mapClaims,
     VerifyToken token = Some claims → MapClaims claims = Some mapClaims →
     engine_calls (Enforce (RString token :: rest)) =
       [RString (normalized_identity mapClaims) :: rest] ∧
     result (Enforce (RString token :: rest)) =
       Return (default false (engine (RString (normalized_identity mapClaims) :: rest)))).
Proof.
  unfold Enforce. split; [done|]. split; [|split; [|split]].
  - unfold enforce. repeat case_match; eauto.
  - intros Hv. unfold enforce. by rewrite Hv.
  - intros claims Hv Hm. unfold enforce. by rewrite Hv, Hm.
  - intros claims mapClaims Hv Hm. rewrite (enforce_success _ _ _ _ Hv Hm). simpl.
    split; [done|]. by destruct (engine _).
Qed.

(** C8. [EnforceErr] returns nil exactly when [Enforce] returns true; a
    denial on a non-empty argument list gives the permission-denied error
    with message ["permission denied: "] followed by the string forms of the
    arguments after the first joined with [", "]; on the empty list the
    message is ["permission denied"]. *)
Theorem EnforceErr_spec rvals :
  (EnforceErr rvals = Return None ↔ result (Enforce rvals) = Return true) ∧
  (result (Enforce rvals) = Return false → rvals ≠ [] →
     EnforceErr rvals =
       Return (Some {| code := PermissionDenied;
                       message := "permission denied: " +:+
                                  Join (Sprintf_s <$> tail rvals) ", " |})) ∧
  (rvals = [] →
     EnforceErr rvals =
       Return (Some {| code := PermissionDenied; message := "permission denied" |})).
Proof.
  unfold EnforceErr. split; [|split].
  - destruct (result (Enforce rvals)) as [[]|]; naive_solver.
  - intros -> Hne. unfold Enforce. rewrite enforce_tail_unchanged.
    by destruct rvals.
  - by intros ->.
Qed.

End EnforceFacts.

(** ** The lock table, the cache and the batch evaluator *)

Section BatchFacts.
Context `{Collaborators}.

Implicit Types (e : EnforcerImpl) (emailId resource action : string).
Implicit Types (vals : list string) (result : gmap string bool).

(** The decision a worker records for an item. *)
Local Abbreviation decision emailId resource action item :=
  (EnforceByEmail [RString (ToLower emailId); RString resource;
                   RString action; RString item]).

Lemma clearCacheLock_lock e emailId :
  lock (clearCacheLock e emailId) = delete (getLockKey emailId) (lock e).
Proof. unfold clearCacheLock. simpl. by rewrite delete_insert_eq. Qed.

Lemma clear_after_acquire e emailId :
  lock (clearCacheLock (acquire e emailId) emailId) =
  delete (getLockKey emailId) (lock e).
Proof.
  rewrite clearCacheLock_lock. unfold acquire. simpl.
  by rewrite delete_insert_eq.
Qed.

Lemma getEnforcerCacheLock_free e emailId :
  lock e !! getLockKey emailId ≠ Some true →
  (getEnforcerCacheLock e emailId).2 = false ∧
  Cache (getEnforcerCacheLock e emailId).1 = Cache e ∧
  delete (getLockKey emailId) (lock (getEnforcerCacheLock e emailId).1) =
    delete (getLockKey emailId) (lock e).
Proof.
  intros Hfree. unfold getEnforcerCacheLock.
  destruct (lock e !! getLockKey emailId) as [[]|] eqn:Hl; simpl; try done.
  by rewrite delete_insert_eq.
Qed.

Lemma getEnforcerCacheLock_acquire e emailId :
  lock (acquire (getEnforcerCacheLock e emailId).1 emailId) =
  <[getLockKey emailId := true]> (lock e).
Proof.
  unfold getEnforcerCacheLock, acquire.
  destruct (lock e !! getLockKey emailId) as [m|]; simpl; [done|].
  by rewrite insert_insert_eq.
Qed.

Lemma getEnforcerCacheLock_held e emailId :
  lock e !! getLockKey emailId = Some true →
  getEnforcerCacheLock e emailId = (e, true).
Proof. intros Hl. unfold getEnforcerCacheLock. by rewrite Hl. Qed.

(** The batch evaluator once the mutex of the identity is known to be free:
    the steps of the function on the initial enforcer. *)
Lemma EnforceByEmailInBatch_free env e emailId resource action vals :
  lock e !! getLockKey emailId ≠ Some true →
  EnforceByEmailInBatch env e emailId resource action vals =
    let cached := getCacheData e emailId resource action in
    let remaining :=
      match cached with
      | Some result => filter (λ item, result !! item = None) vals
      | None => vals
      end in
    let batchSize :=
      Z.min (configuredBatchSize env) (Z.of_nat (length remaining)) in
    let lock' := delete (getLockKey emailId) (lock e) in
    if wrap32 batchSize <? 0 then BatchPanic lock'
    else
      match dispatch batchSize remaining with
      | None => BatchPanic lock'
      | Some workers =>
          if wrap32 batchSize - Z.of_nat (length workers) <? 0 then BatchCrash
          else if 0 <? wrap32 batchSize - Z.of_nat (length workers)
          then BatchHang (<[getLockKey emailId := true]> (lock e))
          else
            let result :=
              foldl (λ result shard,
                       EnforceByEmailInBatchSync result emailId resource action
                                                 shard)
                    (default ∅ cached) workers in
            BatchReturn
              {| lock := lock';
                 Cache := Cache (storeCacheData e emailId resource action result) |}
              result remaining workers
      end.
Proof.
  intros Hfree. unfold EnforceByEmailInBatch.
  destruct (getEnforcerCacheLock_free e emailId Hfree) as (Hm & Hc & Hl).
  pose proof (getEnforcerCacheLock_acquire e emailId) as Hacq.
  destruct (getEnforcerCacheLock e emailId) as [e1 m] eqn:He1.
  cbn [fst snd] in *. subst m.
  assert (getCacheData (acquire e1 emailId) emailId resource action =
          getCacheData e emailId resource action) as ->.
  { unfold getCacheData. simpl. by rewrite Hc. }
  assert (lock (clearCacheLock (acquire e1 emailId) emailId) =
          delete (getLockKey emailId) (lock e)) as ->.
  { unfold clearCacheLock, acquire. simpl. by rewrite !delete_insert_eq. }
  rewrite Hacq.
  assert (∀ b t : Z, (if b >? t then t else b) = Z.min b t) as Hmin.
  { intros b t. destruct (Z.gtb_spec b t); lia. }
  destruct (getCacheData e emailId resource action) as [result|]; cbn zeta iota beta;
    rewrite Hmin; cbn [default];
    (destruct (wrap32 _ <? 0); [done|]);
    (destruct (dispatch _ _) as [workers|]; [|done]);
    (destruct (wrap32 _ - _ <? 0); [done|]);
    (destruct (0 <? wrap32 _ - _); [done|]); f_equal;
    unfold storeCacheData, clearCacheLock, acquire; simpl; rewrite Hc;
    destruct (Cache e) eqn:Hce; simpl; by rewrite ?delete_insert_eq, ?Hl, ?Hce.
Qed.

Lemma EnforceByEmailInBatch_held env e emailId resource action vals :
  lock e !! getLockKey emailId = Some true →
  EnforceByEmailInBatch env e emailId resource action vals = BatchBlocked.
Proof.
  intros Hl. unfold EnforceByEmailInBatch.
  by rewrite (getEnforcerCacheLock_held _ _ Hl).
Qed.

Lemma InvalidateCache_free e emailId :
  lock e !! getLockKey emailId ≠ Some true →
  InvalidateCache e emailId =
    InvalidateReturn
      {| lock := delete (getLockKey emailId) (lock e);
         Cache := delete emailId <$> Cache e |}
      (bool_decide (is_Some (Cache e))).
Proof.
  intros Hfree. unfold InvalidateCache.
  destruct (getEnforcerCacheLock_free e emailId Hfree) as (Hm & Hc & Hl).
  destruct (getEnforcerCacheLock e emailId) as [e1 m] eqn:He1. simpl in *. subst m.
  rewrite Hc. destruct (Cache e) as [c|] eqn:Hce; simpl.
  - unfold clearCacheLock. simpl. by rewrite !delete_insert_eq, Hl.
  - unfold clearCacheLock. simpl. by rewrite !delete_insert_eq, Hl, Hc.
Qed.

Lemma InvalidateCache_held e emailId :
  lock e !! getLockKey emailId = Some true →
  InvalidateCache e emailId = InvalidateBlocked.
Proof.
  intros Hl. unfold InvalidateCache.
  by rewrite (getEnforcerCacheLock_held _ _ Hl).
Qed.

(** *** Dispatch *)

Lemma wrap64_small z : - 2 ^ 63 <= z < 2 ^ 63 → wrap64 z = z.
Proof. intros Hz. unfold wrap64. rewrite Z.mod_small; lia. Qed.

Lemma wrap32_small z : - 2 ^ 31 <= z < 2 ^ 31 → wrap32 z = z.
Proof. intros Hz. unfold wrap32. rewrite Z.mod_small; lia. Qed.

(** A count whose low 32 bits are zero is a multiple of 2^32. *)
Lemma wrap32_zero z :
  wrap32 z = 0 → (2 ^ 32 | z) ∧ (z < 0 → z <= - 2 ^ 32) ∧ (0 < z → 2 ^ 32 <= z).
Proof.
  unfold wrap32. intros Hz.
  pose proof (Z.div_mod (z + 2 ^ 31) (2 ^ 32) ltac:(lia)) as Hdm.
  assert ((z + 2 ^ 31) mod 2 ^ 32 = 2 ^ 31) as Hr by lia.
  rewrite Hr in Hdm. split; [|lia].
  exists ((z + 2 ^ 31) / 2 ^ 32). lia.
Qed.

Lemma shard_bounds_in_range i totalSize batchSize :
  0 <= i < batchSize → batchSize <= totalSize → totalSize < 2 ^ 31 →
  shard_bounds i totalSize batchSize =
    (i * totalSize / batchSize,
     Z.min (i * totalSize / batchSize + totalSize / batchSize) totalSize) ∧
  0 <= i * totalSize / batchSize <= totalSize ∧
  0 <= totalSize / batchSize.
Proof.
  intros Hi Hn Ht.
  assert (0 <= i * totalSize < 2 ^ 62) as Hprod.
  { change (2 ^ 62) with (2 ^ 31 * 2 ^ 31). nia. }
  assert (0 <= i * totalSize / batchSize <= totalSize) as Hstart.
  { split; [apply Z.div_pos; lia|].
    apply Z.div_le_upper_bound; [lia|nia]. }
  assert (0 <= totalSize / batchSize <= totalSize) as Hstep.
  { split; [apply Z.div_pos; lia|].
    apply Z.div_le_upper_bound; [lia|nia]. }
  split; [|split; [done|lia]].
  unfold shard_bounds.
  rewrite (wrap64_small (i * totalSize)) by lia.
  rewrite !Z.quot_div_nonneg by lia.
  rewrite wrap64_small by lia.
  f_equal. destruct (Z.gtb_spec (i * totalSize / batchSize + totalSize / batchSize)
                       totalSize); lia.
Qed.

Lemma shard_end_in_range i totalSize batchSize :
  0 <= i < batchSize → batchSize <= totalSize →
  i * totalSize / batchSize + totalSize / batchSize <= totalSize.
Proof.
  intros Hi Hn.
  pose proof (Z.mul_div_le (i * totalSize) batchSize ltac:(lia)) as H1.
  pose proof (Z.mul_div_le totalSize batchSize ltac:(lia)) as H2.
  assert ((i + 1) * totalSize <= batchSize * totalSize) as H3
    by (apply Z.mul_le_mono_nonneg_r; lia).
  apply (Z.mul_le_mono_pos_l _ _ batchSize); lia.
Qed.

(** Within the bounds the slice expression of shard [i] is in range and
    holds [totalSize / batchSize] items from index [i * totalSize /
    batchSize] on. *)
Lemma shard_slice i batchSize vals :
  0 <= i < batchSize → batchSize <= Z.of_nat (length vals) →
  Z.of_nat (length vals) < 2 ^ 31 →
  (let '(startIndex, endIndex) :=
     shard_bounds i (Z.of_nat (length vals)) batchSize in
   slice vals startIndex endIndex) =
  Some (take (Z.to_nat (Z.of_nat (length vals) / batchSize))
             (drop (Z.to_nat (i * Z.of_nat (length vals) / batchSize)) vals)).
Proof.
  intros Hi Hn Ht.
  destruct (shard_bounds_in_range i (Z.of_nat (length vals)) batchSize)
    as (-> & Hs & Hq); [lia..|].
  pose proof (shard_end_in_range i (Z.of_nat (length vals)) batchSize Hi Hn) as Hend.
  rewrite Z.min_l by done. unfold slice.
  rewrite !andb_true_intro.
  - do 3 f_equal. lia.
  - repeat split; try apply andb_true_intro; repeat split; apply Z.leb_le; lia.
Qed.

(** The item lists of the workers, written out: with a positive shard
    count up to the number of items, and fewer than 2^31 items, no slice
    expression is out of range. *)
Lemma dispatch_explicit batchSize vals :
  0 < batchSize <= Z.of_nat (length vals) → Z.of_nat (length vals) < 2 ^ 31 →
  dispatch batchSize vals =
    Some ((λ i : nat,
             take (Z.to_nat (Z.of_nat (length vals) / batchSize))
                  (drop (Z.to_nat (Z.of_nat i * Z.of_nat (length vals) / batchSize))
                        vals))
          <$> seq 0 (Z.to_nat batchSize)).
Proof.
  intros Hn Ht. unfold dispatch. apply mapM_Some_2, Forall2_fmap_r.
  apply Forall_Forall2_diag, Forall_forall. intros i Hi%elem_of_seq.
  apply shard_slice; lia.
Qed.

Lemma dispatch_zero vals : dispatch 0 vals = Some [].
Proof. done. Qed.

(** One worker is dispatched per shard index. *)
Lemma dispatch_returns batchSize vals :
  0 <= batchSize <= Z.of_nat (length vals) → Z.of_nat (length vals) < 2 ^ 31 →
  ∃ workers, dispatch batchSize vals = Some workers ∧
             Z.of_nat (length workers) = batchSize.
Proof.
  intros Hn Ht. destruct (decide (batchSize = 0)) as [->|Hpos].
  - exists []. by rewrite dispatch_zero.
  - eexists. split; [apply dispatch_explicit; lia|].
    rewrite length_fmap, length_seq. lia.
Qed.

(** Every worker receives exactly [totalSize / batchSize] items, so the
    workers together receive [batchSize * (totalSize / batchSize)] of them. *)
Lemma dispatch_shard_sizes batchSize vals workers :
  0 < batchSize <= Z.of_nat (length vals) → Z.of_nat (length vals) < 2 ^ 31 →
  dispatch batchSize vals = Some workers →
  Forall (λ shard, Z.of_nat (length shard) = Z.of_nat (length vals) / batchSize)
         workers.
Proof.
  intros Hn Ht Hd. rewrite dispatch_explicit in Hd by done. injection Hd as <-.
  apply Forall_fmap, Forall_forall. intros i Hi%elem_of_seq. simpl.
  pose proof (shard_end_in_range (Z.of_nat i) (Z.of_nat (length vals)) batchSize
                ltac:(lia) ltac:(lia)) as Hend.
  assert (0 <= Z.of_nat i * Z.of_nat (length vals) / batchSize) as Hs
    by (apply Z.div_pos; lia).
  assert (0 <= Z.of_nat (length vals) / batchSize) as Hq
    by (apply Z.div_pos; lia).
  rewrite length_take, length_drop. lia.
Qed.

Lemma dispatch_covered batchSize vals workers :
  0 < batchSize <= Z.of_nat (length vals) → Z.of_nat (length vals) < 2 ^ 31 →
  dispatch batchSize vals = Some workers →
  Z.of_nat (length (concat workers)) =
    batchSize * (Z.of_nat (length vals) / batchSize).
Proof.
  intros Hn Ht Hd.
  pose proof (dispatch_shard_sizes _ _ _ Hn Ht Hd) as Hsizes.
  destruct (dispatch_returns batchSize vals) as (ws & Hd' & Hlen); [lia..|].
  rewrite Hd in Hd'. injection Hd' as <-.
  generalize dependent (Z.of_nat (length vals) / batchSize). intros q Hsizes.
  rewrite <- Hlen. clear -Hsizes.
  induction Hsizes as [|w ws Hw _ IH]; [simpl; lia|].
  change (concat (w :: ws)) with (w ++ concat ws).
  rewrite length_app, length_cons, Nat2Z.inj_add, Nat2Z.inj_succ, IH, Hw.
  ring.
Qed.

(** When the shard count divides the number of items the shards are the
    consecutive blocks of the list: every item is handed to a worker. *)
Lemma blocks_concat (k : nat) vals (m : nat) :
  concat ((λ i : nat, take k (drop (i * k) vals)) <$> seq 0 m) =
  take (m * k) vals.
Proof.
  induction m as [|m IH]; [done|].
  rewrite seq_S, fmap_app, concat_app, IH. simpl.
  rewrite app_nil_r, take_take_drop. f_equal. lia.
Qed.

Lemma dispatch_divisible batchSize vals workers :
  0 < batchSize <= Z.of_nat (length vals) → Z.of_nat (length vals) < 2 ^ 31 →
  (batchSize | Z.of_nat (length vals)) →
  dispatch batchSize vals = Some workers →
  concat workers = vals.
Proof.
  intros Hn Ht [k Hk] Hd. rewrite dispatch_explicit in Hd by done.
  injection Hd as <-.
  assert (0 <= k) as Hk0 by nia.
  rewrite (list_fmap_ext _ (λ i : nat, take (Z.to_nat k) (drop (i * Z.to_nat k) vals))).
  - rewrite blocks_concat. apply take_ge. nia.
  - intros _ i _. rewrite Hk. rewrite Z.div_mul by lia.
    replace (Z.of_nat i * (k * batchSize)) with (Z.of_nat i * k * batchSize) by ring.
    rewrite Z.div_mul by lia. do 2 f_equal. nia.
Qed.

(** When it does not, fewer items than requested reach the workers. *)
Lemma dispatch_drops_items batchSize vals workers :
  0 < batchSize <= Z.of_nat (length vals) → Z.of_nat (length vals) < 2 ^ 31 →
  ¬ (batchSize | Z.of_nat (length vals)) →
  dispatch batchSize vals = Some workers →
  (length (concat workers) < length vals)%nat.
Proof.
  intros Hn Ht Hndiv Hd.
  pose proof (dispatch_covered _ _ _ Hn Ht Hd) as Hc.
  pose proof (Z.div_mod (Z.of_nat (length vals)) batchSize) as Hdm.
  pose proof (Z.mod_pos_bound (Z.of_nat (length vals)) batchSize) as Hmod.
  assert (Z.of_nat (length vals) mod batchSize ≠ 0) as Hnz.
  { intros Hz. apply Hndiv. apply Z.mod_divide; lia. }
  lia.
Qed.

(** *** Workers *)

Lemma batchResult_lookup emailId resource action vals item :
  batchResult emailId resource action vals !! item =
    if decide (item ∈ vals) then Some (decision emailId resource action item)
    else None.
Proof.
  unfold batchResult.
  assert (∀ m : gmap string bool,
    foldl (λ m item, <[item := decision emailId resource action item]> m) m vals
      !! item =
    if decide (item ∈ vals) then Some (decision emailId resource action item)
    else m !! item) as Hgen.
  { induction vals as [|v vals IH]; intros m; simpl; [done|].
    rewrite IH. destruct (decide (item = v)) as [->|Hne].
    - rewrite lookup_insert_eq.
      rewrite (decide_True (P := v ∈ v :: vals)) by apply list_elem_of_here.
      by case_decide.
    - rewrite lookup_insert_ne by done.
      repeat case_decide; try done; set_solver. }
  rewrite Hgen. by case_decide.
Qed.

(** After the workers have merged, an item handed to some worker holds the
    decision of the engine for the lower-cased identity; every other item
    keeps what the mapping held before. *)
Lemma merged_lookup emailId resource action workers result item :
  foldl (λ result shard,
           EnforceByEmailInBatchSync result emailId resource action shard)
        result workers !! item =
    if decide (item ∈ concat workers)
    then Some (decision emailId resource action item)
    else result !! item.
Proof.
  revert result. induction workers as [|w workers IH]; intros result; simpl; [done|].
  rewrite IH. unfold EnforceByEmailInBatchSync.
  pose proof (batchResult_lookup emailId resource action w item) as Hw.
  destruct (decide (item ∈ w)) as [Hin|Hnin].
  - rewrite (decide_True (P := item ∈ w ++ concat workers)) by set_solver.
    case_decide; [done|]. by apply lookup_union_Some_l.
  - rewrite lookup_union_r by done.
    repeat case_decide; try done; set_solver.
Qed.

(** The merged mapping does not depend on the order in which the workers
    take the mutex of the result. *)
Lemma concat_elem_of_Permutation (workers workers' : list (list string)) item :
  workers ≡ₚ workers' → item ∈ concat workers ↔ item ∈ concat workers'.
Proof.
  induction 1 as [|w ws ws' _ IH|w1 w2 ws|ws1 ws2 ws3 _ IH1 _ IH2]; simpl.
  - done.
  - rewrite !elem_of_app. by rewrite IH.
  - rewrite !elem_of_app. tauto.
  - by rewrite IH1.
Qed.

Lemma merge_order_irrelevant emailId resource action workers workers' result :
  workers ≡ₚ workers' →
  foldl (λ result shard,
           EnforceByEmailInBatchSync result emailId resource action shard)
        result workers =
  foldl (λ result shard,
           EnforceByEmailInBatchSync result emailId resource action shard)
        result workers'.
Proof.
  intros Hperm. apply map_eq. intros item. rewrite !merged_lookup.
  pose proof (concat_elem_of_Permutation _ _ item Hperm).
  repeat case_decide; tauto || done.
Qed.

(** *** The lock table *)

Lemma EnforceByEmailInBatch_lock env e emailId resource action vals :
  match EnforceByEmailInBatch env e emailId resource action vals with
  | BatchReturn e' _ _ _ => lock e' = delete (getLockKey emailId) (lock e)
  | BatchPanic lock' => lock' = delete (getLockKey emailId) (lock e)
  | BatchBlocked => lock e !! getLockKey emailId = Some true
  | BatchHang lock' => lock' = <[getLockKey emailId := true]> (lock e)
  | BatchCrash => True
  end.
Proof.
  destruct (decide (lock e !! getLockKey emailId = Some true)) as [Hheld|Hfree].
  - by rewrite EnforceByEmailInBatch_held.
  - rewrite EnforceByEmailInBatch_free by done. cbn zeta.
    destruct (wrap32 _ <? 0); [done|].
    destruct (dispatch _ _); [|done].
    destruct (wrap32 _ - _ <? 0); [done|].
    by destruct (0 <? wrap32 _ - _).
Qed.

Lemma InvalidateCache_lock e emailId :
  match InvalidateCache e emailId with
  | InvalidateReturn e' _ => lock e' = delete (getLockKey emailId) (lock e)
  | InvalidateBlocked => lock e !! getLockKey emailId = Some true
  end.
Proof.
  destruct (decide (lock e !! getLockKey emailId = Some true)) as [Hheld|Hfree].
  - by rewrite InvalidateCache_held.
  - by rewrite InvalidateCache_free.
Qed.

(** Between the calls of a sequential use the lock table is empty. *)
Lemma reachable_lock_empty e : reachable e → lock e = ∅.
Proof.
  induction 1 as [enable
                 |env e emailId resource action vals e' result remaining workers _ IH Hrun
                 |env e emailId resource action vals lock' cache' _ IH Hrun
                 |e emailId e' r _ IH Hrun
                 |e _ IH].
  - done.
  - pose proof (EnforceByEmailInBatch_lock env e emailId resource action vals) as Hl.
    rewrite Hrun, IH in Hl. by rewrite Hl, delete_empty.
  - pose proof (EnforceByEmailInBatch_lock env e emailId resource action vals) as Hl.
    rewrite Hrun, IH in Hl. simpl. by rewrite Hl, delete_empty.
  - pose proof (InvalidateCache_lock e emailId) as Hl.
    rewrite Hrun, IH in Hl. by rewrite Hl, delete_empty.
  - unfold InvalidateCompleteCache. by destruct (Cache e).
Qed.

(** C7. A handle is created when the key has none; however a call of
    [EnforceByEmailInBatch] or [InvalidateCache] ends, by returning or by a
    panic, the lock table afterwards is the initial one without the handle
    of the identity, and a call blocks on the mutex only when the handle is
    already held.  Hence, in a sequential use starting from
    [NewEnforcerImpl], the table holds no handle at all between calls and
    no call blocks on the mutex.  (A call that never leaves [wg.Wait] is
    not complete: it keeps the handle, locked.) *)
Theorem lock_handle_removed env e emailId resource action vals :
  (lock e !! getLockKey emailId = None →
     lock (getEnforcerCacheLock e emailId).1 !! getLockKey emailId = Some false) ∧
  match EnforceByEmailInBatch env e emailId resource action vals with
  | BatchReturn e' _ _ _ =>
      lock e' = delete (getLockKey emailId) (lock e) ∧
      lock e' !! getLockKey emailId = None
  | BatchPanic lock' =>
      lock' = delete (getLockKey emailId) (lock e) ∧
      lock' !! getLockKey emailId = None
  | BatchBlocked => lock e !! getLockKey emailId = Some true
  | BatchHang lock' => lock' = <[getLockKey emailId := true]> (lock e)
  | BatchCrash => True
  end ∧
  match InvalidateCache e emailId with
  | InvalidateReturn e' _ =>
      lock e' = delete (getLockKey emailId) (lock e) ∧
      lock e' !! getLockKey emailId = None
  | InvalidateBlocked => lock e !! getLockKey emailId = Some true
  end ∧
  (reachable e →
     lock e = ∅ ∧
     EnforceByEmailInBatch env e emailId resource action vals ≠ BatchBlocked ∧
     InvalidateCache e emailId ≠ InvalidateBlocked).
Proof.
  pose proof (EnforceByEmailInBatch_lock env e emailId resource action vals) as Hb.
  pose proof (InvalidateCache_lock e emailId) as Hi.
  split; [|split; [|split]].
  - intros Hl. unfold getEnforcerCacheLock. rewrite Hl. simpl.
    apply lookup_insert_eq.
  - destruct (EnforceByEmailInBatch _ _ _ _ _ _); [| |done|done|done];
      (split; [done|]); rewrite Hb; apply lookup_delete_eq.
  - destruct (InvalidateCache _ _); [|done].
    split; [done|]. rewrite Hi. apply lookup_delete_eq.
  - intros Hempty%reachable_lock_empty. split; [done|].
    rewrite Hempty, lookup_empty in Hb, Hi.
    split; intros Heq; [by rewrite Heq in Hb|by rewrite Heq in Hi].
Qed.

(** *** Invalidation *)

Lemma getCacheData_delete_other e emailId other resource action lock' :
  other ≠ emailId →
  getCacheData {| lock := lock'; Cache := delete emailId <$> Cache e |}
               other resource action =
  getCacheData e other resource action.
Proof.
  intros Hne. unfold getCacheData. simpl.
  destruct (Cache e) as [c|]; simpl; [|done].
  by rewrite lookup_delete_ne.
Qed.

Lemma getCacheData_delete e emailId resource action lock' :
  getCacheData {| lock := lock'; Cache := delete emailId <$> Cache e |}
               emailId resource action = None.
Proof.
  unfold getCacheData. simpl.
  destruct (Cache e) as [c|]; simpl; [|done].
  by rewrite lookup_delete_eq.
Qed.

(** *** Shape of a returning call *)

Lemma dispatch_nonpos batchSize vals :
  batchSize <= 0 → dispatch batchSize vals = Some [].
Proof.
  intros Hn. unfold dispatch.
  by replace (Z.to_nat batchSize) with 0%nat by lia.
Qed.

Lemma BatchReturn_inv env e emailId resource action vals e' result remaining workers :
  EnforceByEmailInBatch env e emailId resource action vals =
    BatchReturn e' result remaining workers →
  lock e !! getLockKey emailId ≠ Some true ∧
  remaining =
    match getCacheData e emailId resource action with
    | Some cached => filter (λ item, cached !! item = None) vals
    | None => vals
    end ∧
  wrap32 (Z.min (configuredBatchSize env) (Z.of_nat (length remaining))) =
    Z.of_nat (length workers) ∧
  dispatch (Z.min (configuredBatchSize env) (Z.of_nat (length remaining))) remaining =
    Some workers ∧
  result =
    foldl (λ result shard,
             EnforceByEmailInBatchSync result emailId resource action shard)
          (default ∅ (getCacheData e emailId resource action)) workers ∧
  e' = {| lock := delete (getLockKey emailId) (lock e);
          Cache := Cache (storeCacheData e emailId resource action result) |}.
Proof.
  intros Hret.
  destruct (decide (lock e !! getLockKey emailId = Some true)) as [Hheld|Hfree].
  { by rewrite EnforceByEmailInBatch_held in Hret. }
  rewrite EnforceByEmailInBatch_free in Hret by done. cbn zeta in Hret.
  destruct (wrap32 _ <? 0) eqn:Hneg; [done|].
  destruct (dispatch _ _) as [ws|] eqn:Hd; [|done].
  destruct (Z.ltb_spec (wrap32 (Z.min (configuredBatchSize env)
    (Z.of_nat (length match getCacheData e emailId resource action with
                       | Some cached => filter (λ item, cached !! item = None) vals
                       | None => vals
                       end))) - Z.of_nat (length ws)) 0) as [|Hge]; [done|].
  destruct (Z.ltb_spec 0 (wrap32 (Z.min (configuredBatchSize env)
    (Z.of_nat (length match getCacheData e emailId resource action with
                       | Some cached => filter (λ item, cached !! item = None) vals
                       | None => vals
                       end))) - Z.of_nat (length ws))) as [|Hle]; [done|].
  simplify_eq. repeat split; try done. lia.
Qed.

(** A returning call either has a shard count that is not negative, or a
    negative one that is a multiple of 2^32 and no worker at all. *)
Lemma returning_shard_count env e emailId resource action vals
    e' result remaining workers :
  EnforceByEmailInBatch env e emailId resource action vals =
    BatchReturn e' result remaining workers →
  0 <= Z.min (configuredBatchSize env) (Z.of_nat (length remaining)) ∨
  (Z.min (configuredBatchSize env) (Z.of_nat (length remaining)) <= - 2 ^ 32 ∧
   configuredBatchSize env < 0 ∧ workers = []).
Proof.
  intros Hret.
  destruct (BatchReturn_inv _ _ _ _ _ _ _ _ _ _ Hret)
    as (_ & _ & Hcount & Hd & _ & _).
  destruct (Z.le_gt_cases 0 (Z.min (configuredBatchSize env)
                                   (Z.of_nat (length remaining)))) as [|Hneg];
    [by left|right].
  rewrite dispatch_nonpos in Hd by lia. injection Hd as <-.
  simpl in Hcount. apply wrap32_zero in Hcount as (_ & Hle & _).
  repeat split; [by apply Hle|lia].
Qed.

(** With a shard count from 0 up to the number of uncached items, and fewer
    than 2^31 of those, a call made while the handle is free returns. *)
Lemma batch_returns_in_range env e emailId resource action vals remaining :
  lock e !! getLockKey emailId ≠ Some true →
  remaining =
    match getCacheData e emailId resource action with
    | Some cached => filter (λ item, cached !! item = None) vals
    | None => vals
    end →
  0 <= configuredBatchSize env → Z.of_nat (length remaining) < 2 ^ 31 →
  ∃ e' result workers,
    EnforceByEmailInBatch env e emailId resource action vals =
      BatchReturn e' result remaining workers ∧
    Z.of_nat (length workers) =
      Z.min (configuredBatchSize env) (Z.of_nat (length remaining)).
Proof.
  intros Hfree Hrem Hbatch Hlen.
  rewrite EnforceByEmailInBatch_free by done. cbn zeta. rewrite <- Hrem.
  clear Hrem.
  destruct (dispatch_returns
              (Z.min (configuredBatchSize env) (Z.of_nat (length remaining)))
              remaining) as (workers & Hd & Hw); [lia..|].
  rewrite Hd.
  rewrite (wrap32_small (Z.min _ _)) by lia.
  rewrite Hw, Z.sub_diag. simpl.
  destruct (Z.ltb_spec (Z.min (configuredBatchSize env)
                              (Z.of_nat (length remaining))) 0); [lia|].
  by eexists _, _, _.
Qed.

Lemma workers_cover_when_divisible env e emailId resource action vals
    e' result remaining workers :
  EnforceByEmailInBatch env e emailId resource action vals =
    BatchReturn e' result remaining workers →
  Z.of_nat (length remaining) < 2 ^ 31 →
  (Z.min (configuredBatchSize env) (Z.of_nat (length remaining))
   | Z.of_nat (length remaining)) →
  concat workers = remaining.
Proof.
  intros Hret Hlen Hdiv.
  destruct (BatchReturn_inv _ _ _ _ _ _ _ _ _ _ Hret)
    as (_ & _ & _ & Hd & _ & _).
  destruct (returning_shard_count _ _ _ _ _ _ _ _ _ _ Hret)
    as [Hnn|(Hneg & _ & ->)].
  - destruct (decide (Z.min (configuredBatchSize env)
                            (Z.of_nat (length remaining)) = 0)) as [Hz|Hnz].
    + rewrite Hz in Hd, Hdiv. apply Z.divide_0_l in Hdiv.
      rewrite dispatch_zero in Hd. injection Hd as <-.
      destruct remaining; [done|simpl in Hdiv; lia].
    + eapply dispatch_divisible; [| |exact Hdiv|exact Hd]; lia.
  - destruct Hdiv as [k Hk].
    assert (k = 0) as -> by nia.
    destruct remaining; [done|simpl in Hk; lia].
Qed.

(** When the shard count divides the number of items left, a returning call
    holds a decision for every requested item. *)
Lemma decisions_complete_when_divisible env e emailId resource action vals
    e' result remaining workers :
  EnforceByEmailInBatch env e emailId resource action vals =
    BatchReturn e' result remaining workers →
  Z.of_nat (length remaining) < 2 ^ 31 →
  (Z.min (configuredBatchSize env) (Z.of_nat (length remaining))
   | Z.of_nat (length remaining)) →
  ∀ item, item ∈ vals → is_Some (result !! item).
Proof.
  intros Hret Hlen Hdiv item Hin.
  destruct (BatchReturn_inv _ _ _ _ _ _ _ _ _ _ Hret)
    as (Hfree & Hrem & Hnn & Hd & Hres & He').
  pose proof (workers_cover_when_divisible _ _ _ _ _ _ _ _ _ _ Hret Hlen Hdiv)
    as Hcover.
  rewrite Hres, merged_lookup, Hcover. case_decide as Hitem; [done|].
  destruct (getCacheData e emailId resource action) as [cached|]; simpl in *.
  - destruct (cached !! item) eqn:Hc; [done|].
    destruct Hitem. rewrite Hrem. by apply list_elem_of_filter.
  - by subst remaining.
Qed.

(** *** The configured shard count *)

(** C10. The value of [ENFORCER_MAX_BATCH_SIZE] is used whenever it parses,
    the default only when it does not.  When it parses to 0, a call made
    while the handle of the identity is free returns with no worker
    dispatched: the mapping returned is the cached one (empty without a
    cached one), so no item of the request that is not cached has a decision
    in it, and each such item is among the items left over. *)
Theorem batch_size_zero env e emailId resource action vals :
  (∀ v, Atoi env = Some v → configuredBatchSize env = v) ∧
  (Atoi env = None → configuredBatchSize env = EnforcerBatchDefaultSize) ∧
  (Atoi env = Some 0 → lock e !! getLockKey emailId ≠ Some true →
   ∃ e' result remaining,
     EnforceByEmailInBatch env e emailId resource action vals =
       BatchReturn e' result remaining [] ∧
     result = default ∅ (getCacheData e emailId resource action) ∧
     ∀ item, item ∈ vals →
       default ∅ (getCacheData e emailId resource action) !! item = None →
       item ∈ remaining ∧ result !! item = None).
Proof.
  unfold configuredBatchSize. split; [|split].
  - by intros v ->.
  - by intros ->.
  - intros Hzero Hfree. rewrite EnforceByEmailInBatch_free by done. simpl.
    unfold configuredBatchSize. rewrite Hzero.
    rewrite Z.min_l by lia. simpl. eexists _, _, _. split; [done|].
    split; [done|]. intros item Hin Hunc. split; [|done].
    destruct (getCacheData e emailId resource action); simpl in *; [|done].
    by apply list_elem_of_filter.
Qed.

(** *** Repeating a call *)

(** C4, amended. With caching enabled, when a call returns a mapping that
    holds a decision for every requested item, the same call repeated on the
    enforcer it left finds every item cached: no item is left over, no
    worker is dispatched, the same mapping is returned and the enforcer is
    unchanged. *)
Theorem second_call_hits_cache env e c emailId resource action vals
    e1 result1 remaining1 workers1 :
  Cache e = Some c →
  EnforceByEmailInBatch env e emailId resource action vals =
    BatchReturn e1 result1 remaining1 workers1 →
  (∀ item, item ∈ vals → is_Some (result1 !! item)) →
  EnforceByEmailInBatch env e1 emailId resource action vals =
    BatchReturn e1 result1 [] [].
Proof.
  intros Hc Hret Hall.
  destruct (BatchReturn_inv _ _ _ _ _ _ _ _ _ _ Hret)
    as (Hfree & Hrem & Hnn & Hd & Hres & He1).
  assert (lock e1 !! getLockKey emailId = None) as Hl1.
  { rewrite He1. simpl. apply lookup_delete_eq. }
  assert (Cache e1 = Some (<[emailId :=
            <[getCacheKey resource action := result1]> (default ∅ (c !! emailId))]> c))
    as Hc1.
  { rewrite He1. unfold storeCacheData. by rewrite Hc. }
  assert (getCacheData e1 emailId resource action = Some result1) as Hget.
  { unfold getCacheData. rewrite Hc1. by rewrite !lookup_insert_eq. }
  assert (wrap32 (Z.min (configuredBatchSize env) 0) = 0) as Hcount.
  { destruct (returning_shard_count _ _ _ _ _ _ _ _ _ _ Hret)
      as [Hge|(Hneg & Hb & ->)].
    - by rewrite Z.min_r by lia.
    - rewrite Z.min_l by lia. by rewrite Z.min_l in Hnn by lia. }
  rewrite EnforceByEmailInBatch_free by (by rewrite Hl1).
  rewrite Hget. cbn zeta iota beta.
  assert (filter (λ item, result1 !! item = None) vals = []) as ->.
  { clear -Hall. induction vals as [|v vals IH]; [done|].
    rewrite filter_cons. destruct (Hall v) as [b Hb]; [by left|].
    rewrite decide_False by (by rewrite Hb).
    apply IH. intros item Hin. apply Hall. by right. }
  change (Z.of_nat (length (@nil string))) with 0.
  rewrite Hcount, dispatch_nonpos by lia. simpl.
  f_equal. destruct e1 as [l1 c1]. simpl in *. f_equal.
  - by apply delete_id.
  - unfold storeCacheData. simpl. rewrite Hc1. simpl. f_equal.
    rewrite lookup_insert_eq. simpl. by rewrite !insert_insert_eq.
Qed.

(** *** Keys *)

(** C2, amended. The key of the lock table is the [emailId] argument as it
    was passed, and so is the key of the cache.  A returning batch call
    found the handle of that very key free and leaves the lock table
    without it; it reads the cache under that very key (the items it is
    left with are the requested ones without a decision in the mapping
    cached there, and the mapping returned keeps that mapping for the items
    no worker evaluated), writes its mapping under that very key and leaves
    the data cached under any other key alone.  [InvalidateCache] takes the
    handle of that very key and deletes that very key.  The lower-cased
    identity is only what the workers hand to the policy engine. *)
Theorem keys_are_verbatim env e emailId resource action vals
    e' result remaining workers :
  EnforceByEmailInBatch env e emailId resource action vals =
    BatchReturn e' result remaining workers →
  getLockKey emailId = emailId ∧
  (lock e !! emailId ≠ Some true ∧ lock e' = delete emailId (lock e)) ∧
  (lock e !! emailId = None →
     dom (lock (getEnforcerCacheLock e emailId).1) = {[emailId]} ∪ dom (lock e)) ∧
  (getCacheData e emailId resource action =
     (Cache e ≫= (λ c, c !! emailId)) ≫=
       (λ emailResult, emailResult !! getCacheKey resource action)) ∧
  remaining =
    match getCacheData e emailId resource action with
    | Some cached => filter (λ item, cached !! item = None) vals
    | None => vals
    end ∧
  (∀ item, item ∉ concat workers →
     result !! item =
     default ∅ (getCacheData e emailId resource action) !! item) ∧
  (∀ c, Cache e = Some c →
     ∃ entry, Cache e' = Some (<[emailId := entry]> c) ∧
              entry !! getCacheKey resource action = Some result) ∧
  (∀ other r a, other ≠ emailId →
     getCacheData e' other r a = getCacheData e other r a) ∧
  (∀ item, item ∈ concat workers →
     result !! item = Some (decision emailId resource action item)) ∧
  (∀ e0 e0' b, InvalidateCache e0 emailId = InvalidateReturn e0' b →
     lock e0 !! emailId ≠ Some true ∧
     lock e0' = delete emailId (lock e0) ∧
     Cache e0' = delete emailId <$> Cache e0).
Proof.
  intros Hret.
  destruct (BatchReturn_inv _ _ _ _ _ _ _ _ _ _ Hret)
    as (Hfree & Hrem & Hnn & Hd & Hres & He').
  split; [done|]. split; [by rewrite He'|].
  split; [|split; [|split; [done|split; [|split; [|split; [|split]]]]]].
  - intros Hl. unfold getEnforcerCacheLock, getLockKey. rewrite Hl. simpl.
    apply dom_insert_L.
  - unfold getCacheData. destruct (Cache e) as [c|]; simpl; [|done].
    by destruct (c !! emailId).
  - intros item Hnin. by rewrite Hres, merged_lookup, decide_False.
  - intros c Hc. rewrite He'. unfold storeCacheData. rewrite Hc. simpl.
    eexists. split; [done|]. apply lookup_insert_eq.
  - intros other r a Hne. rewrite He'. unfold getCacheData, storeCacheData.
    destruct (Cache e) as [c|] eqn:Hc; simpl; [|by rewrite Hc].
    by rewrite lookup_insert_ne.
  - intros item Hin. rewrite Hres, merged_lookup. by rewrite decide_True.
  - intros e0 e0' b Hinv.
    destruct (decide (lock e0 !! getLockKey emailId = Some true)) as [Hheld|Hfree0].
    + by rewrite InvalidateCache_held in Hinv.
    + rewrite InvalidateCache_free in Hinv by done. by simplify_eq.
Qed.

(** *** Invalidation followed by a batch call *)

(** C6, amended. [InvalidateCache], called while the handle of the identity
    is free, returns false exactly when caching is disabled; it deletes the
    entry of that identity and leaves what is cached for any other identity
    as it was.  The next batch call for the identity finds nothing cached:
    the items it shards are the whole list requested and (with a
    non-negative batch size and fewer than 2^31 items) it returns after
    dispatching min(batch size, number of items) workers over that list,
    the mapping returned holding the decisions of those workers and nothing
    else.  When the batch size divides the number of items, or is at least
    that number, the workers are handed the whole list and every requested
    item has the decision of the engine. *)
Theorem InvalidateCache_spec e emailId :
  lock e !! getLockKey emailId ≠ Some true →
  ∃ e' r,
    InvalidateCache e emailId = InvalidateReturn e' r ∧
    (r = false ↔ Cache e = None) ∧ (r = true ↔ Cache e ≠ None) ∧
    Cache e' = delete emailId <$> Cache e ∧
    (∀ other resource action, other ≠ emailId →
       getCacheData e' other resource action =
       getCacheData e other resource action) ∧
    (∀ resource action, getCacheData e' emailId resource action = None) ∧
    (∀ env resource action vals,
       0 <= configuredBatchSize env → Z.of_nat (length vals) < 2 ^ 31 →
       ∃ e'' result workers,
         EnforceByEmailInBatch env e' emailId resource action vals =
           BatchReturn e'' result vals workers ∧
         dispatch (Z.min (configuredBatchSize env) (Z.of_nat (length vals))) vals =
           Some workers ∧
         Z.of_nat (length workers) =
           Z.min (configuredBatchSize env) (Z.of_nat (length vals)) ∧
         (∀ item, result !! item =
            if decide (item ∈ concat workers)
            then Some (decision emailId resource action item) else None) ∧
         ((configuredBatchSize env | Z.of_nat (length vals)) ∨
          Z.of_nat (length vals) <= configuredBatchSize env →
          concat workers = vals ∧
          ∀ item, item ∈ vals →
            result !! item = Some (decision emailId resource action item))).
Proof.
  intros Hfree. eexists _, _. split; [by apply InvalidateCache_free|].
  split; [|split; [|split; [done|split; [|split]]]].
  - by destruct (Cache e).
  - by destruct (Cache e).
  - intros other resource action Hne. by apply getCacheData_delete_other.
  - intros resource action. apply getCacheData_delete.
  - intros env resource action vals Hbatch Hlen.
    set (e' := {| lock := delete (getLockKey emailId) (lock e);
                  Cache := delete emailId <$> Cache e |}).
    assert (getCacheData e' emailId resource action = None) as Hnone
      by apply getCacheData_delete.
    destruct (batch_returns_in_range env e' emailId resource action vals vals)
      as (e'' & result & workers & Hrun & Hcount);
      [by (simpl; rewrite lookup_delete_eq)|by rewrite Hnone|done..|].
    destruct (BatchReturn_inv _ _ _ _ _ _ _ _ _ _ Hrun)
      as (_ & _ & _ & Hd & Hres & _).
    rewrite Hnone in Hres. simpl in Hres.
    assert (∀ item, result !! item =
              if decide (item ∈ concat workers)
              then Some (decision emailId resource action item) else None)
      as Hlookup.
    { intros item. by rewrite Hres, merged_lookup, lookup_empty. }
    exists e'', result, workers. repeat split; try done.
    + assert (Z.min (configuredBatchSize env) (Z.of_nat (length vals))
              | Z.of_nat (length vals)) as Hdiv.
      { destruct (Z.le_gt_cases (Z.of_nat (length vals)) (configuredBatchSize env)).
        - by rewrite Z.min_r.
        - rewrite Z.min_l by lia. destruct H0; [done|lia]. }
      by apply (workers_cover_when_divisible _ _ _ _ _ _ _ _ _ _ Hrun).
    + intros item Hin.
      assert (Z.min (configuredBatchSize env) (Z.of_nat (length vals))
              | Z.of_nat (length vals)) as Hdiv.
      { destruct (Z.le_gt_cases (Z.of_nat (length vals)) (configuredBatchSize env)).
        - by rewrite Z.min_r.
        - rewrite Z.min_l by lia. destruct H0; [done|lia]. }
      rewrite Hlookup, decide_True; [done|].
      by rewrite (workers_cover_when_divisible _ _ _ _ _ _ _ _ _ _ Hrun Hlen Hdiv).
Qed.

End BatchFacts.

(** ** Concrete runs *)

Section Runs.
Local Existing Instance sample.

Local Ltac run := vm_compute; reflexivity.

Local Ltac each_item Hin :=
  repeat (apply elem_of_cons in Hin as [->|Hin]);
  [..|by apply elem_of_nil in Hin].

Example atoi_samples :
  Atoi "7" = Some 7 ∧ Atoi "-12" = Some (-12) ∧ Atoi "+0" = Some 0 ∧
  Atoi "" = None ∧ Atoi "1x" = None ∧ Atoi "-" = None ∧
  Atoi "9223372036854775807" = Some max_int ∧
  Atoi "9223372036854775808" = None.
Proof. repeat split; run. Qed.

Example split_samples :
  Split "a/b/c" "/" = ["a"; "b"; "c"] ∧ Split "" "/" = [""] ∧
  Split "a//c" "/" = ["a"; ""; "c"] ∧ Split "/" "/" = [""; ""].
Proof. repeat split; run. Qed.

Example match_samples :
  MatchKeyByPart "a/bcd/d" "a/bc*/d" = true ∧
  MatchKeyByPart "a/b/d" "a/bc*/d" = false ∧
  MatchKeyByPart "a/bc/d" "a/bc*/d" = true ∧
  MatchKeyByPart "a/bcd/d" "a/bc*x/d" = true ∧
  MatchKeyByPart "" "" = false.
Proof. repeat split; run. Qed.

(** The end-to-end scenario: the engine grants ["x"] and ["z"] only. *)
Example batch_xyz :
  EnforceByEmailInBatch "3" cache_on "alice" "app" "view" ["x"; "y"; "z"] =
    BatchReturn alice_cached xyz_decisions ["x"; "y"; "z"] [["x"]; ["y"]; ["z"]] ∧
  EnforceByEmailInBatch "3" alice_cached "alice" "app" "view" ["x"; "y"; "z"] =
    BatchReturn alice_cached xyz_decisions [] [].
Proof. split; run. Qed.

(** C1 (defect of the code). With a shard count of 2 and five uncached
    items the ranges are [0,2) and [2,4): index 4 is in no range, only two
    workers of two items each are dispatched, and the mapping returned has
    no decision for the fifth item. *)
Theorem partition_drops_remainder :
  shard_bounds 0 5 2 = (0, 2) ∧ shard_bounds 1 5 2 = (2, 4) ∧
  dispatch 2 ["a"; "b"; "c"; "d"; "e"] = Some [["a"; "b"]; ["c"; "d"]] ∧
  (∃ e',
     EnforceByEmailInBatch "2" cache_on "alice" "app" "view"
                           ["a"; "b"; "c"; "d"; "e"] =
       BatchReturn e' abcd_decisions ["a"; "b"; "c"; "d"; "e"]
                   [["a"; "b"]; ["c"; "d"]]) ∧
  abcd_decisions !! "e" = None.
Proof. repeat split; try run. eexists. run. Qed.

(** The item dropped by the first call is what the second call evaluates. *)
Example second_call_after_dropped_item :
  ∃ e1 e2 result2,
    EnforceByEmailInBatch "2" cache_on "alice" "app" "view"
                          ["a"; "b"; "c"; "d"; "e"] =
      BatchReturn e1 abcd_decisions ["a"; "b"; "c"; "d"; "e"]
                  [["a"; "b"]; ["c"; "d"]] ∧
    EnforceByEmailInBatch "2" e1 "alice" "app" "view"
                          ["a"; "b"; "c"; "d"; "e"] =
      BatchReturn e2 result2 ["e"] [["e"]] ∧
    result2 !! "e" = Some false.
Proof. eexists _, _, _. repeat split; run. Qed.

(** C2, as stated, fails: ["Alice"] and ["alice"] have the same lower-cased
    form but distinct lock keys, and the handle created for one is not a
    handle of the other: a call for ["Alice"] goes through while the handle
    of ["alice"] is held.  With every item cached under ["alice"], a batch
    call for ["Alice"] finds nothing cached, evaluates all the items and
    caches them under ["Alice"], beside the entry of ["alice"]; and
    [InvalidateCache] for ["Alice"] leaves the entry of ["alice"] in
    place. *)
Lemma keys_not_normalized :
  ToLower "Alice" = ToLower "alice" ∧
  getLockKey "Alice" ≠ ToLower "Alice" ∧
  getLockKey "Alice" ≠ getLockKey "alice" ∧
  lock (getEnforcerCacheLock cache_on "Alice").1 !! "Alice" = Some false ∧
  lock (getEnforcerCacheLock cache_on "Alice").1 !! "alice" = None ∧
  EnforceByEmailInBatch "3" alice_held "alice" "app" "view" ["x"; "y"; "z"] =
    BatchBlocked ∧
  (∃ e',
     EnforceByEmailInBatch "3" alice_held "Alice" "app" "view" ["x"; "y"; "z"] =
       BatchReturn e' xyz_decisions ["x"; "y"; "z"] [["x"]; ["y"]; ["z"]] ∧
     lock e' !! "alice" = Some true) ∧
  EnforceByEmailInBatch "3" alice_cached "alice" "app" "view" ["x"; "y"; "z"] =
    BatchReturn alice_cached xyz_decisions [] [] ∧
  EnforceByEmailInBatch "3" alice_cached "Alice" "app" "view" ["x"; "y"; "z"] =
    BatchReturn alice_both_cached xyz_decisions ["x"; "y"; "z"]
                [["x"]; ["y"]; ["z"]] ∧
  getCacheData alice_cached (ToLower "Alice") "app" "view" = Some xyz_decisions ∧
  getCacheData alice_cached "Alice" "app" "view" = None ∧
  InvalidateCache alice_cached "Alice" = InvalidateReturn alice_cached true ∧
  (∃ e',
     EnforceByEmailInBatch "3" cache_on "Alice" "app" "view" ["x"; "y"; "z"] =
       BatchReturn e' xyz_decisions ["x"; "y"; "z"] [["x"]; ["y"]; ["z"]] ∧
     getCacheData e' "Alice" "app" "view" = Some xyz_decisions ∧
     getCacheData e' "alice" "app" "view" = None ∧
     getCacheData e' (ToLower "Alice") "app" "view" = None).
Proof.
  repeat split; try run; try (by vm_compute).
  - eexists. repeat split; run.
  - eexists. repeat split; run.
Qed.

(** C4, as stated, fails: with caching disabled the repeated call finds
    nothing cached, is left with the whole item list and dispatches its
    workers again. *)
Lemma second_call_without_cache :
  EnforceByEmailInBatch "3" cache_off "alice" "app" "view" ["x"; "y"; "z"] =
    BatchReturn cache_off xyz_decisions ["x"; "y"; "z"] [["x"]; ["y"]; ["z"]] ∧
  ¬ (∃ e2 result2,
       EnforceByEmailInBatch "3" cache_off "alice" "app" "view" ["x"; "y"; "z"] =
         BatchReturn e2 result2 [] []).
Proof.
  assert (EnforceByEmailInBatch "3" cache_off "alice" "app" "view" ["x"; "y"; "z"] =
          BatchReturn cache_off xyz_decisions ["x"; "y"; "z"] [["x"]; ["y"]; ["z"]])
    as Hrun by run.
  split; [done|]. intros (e2 & result2 & Hzero). rewrite Hrun in Hzero. done.
Qed.

(** C5, as stated, fails: a first argument that is not a string makes the
    type assertion panic before the recovery is installed. *)
Lemma Enforce_panics_on_non_string :
  result (Enforce [RInt 42; RString "app"; RString "get"]) = Panic ∧
  EnforceErr [RInt 42; RString "app"; RString "get"] = Panic.
Proof. split; reflexivity. Qed.

(** *** Instances of the theorems *)

Lemma keys_are_verbatim_witness :
  EnforceByEmailInBatch "3" alice_cached "Alice" "app" "view" ["x"; "y"; "z"] =
    BatchReturn alice_both_cached xyz_decisions ["x"; "y"; "z"]
                [["x"]; ["y"]; ["z"]] ∧
  getLockKey "Alice" = "Alice" ∧
  ["x"; "y"; "z"] =
    match getCacheData alice_cached "Alice" "app" "view" with
    | Some cached => filter (λ item, cached !! item = None) ["x"; "y"; "z"]
    | None => ["x"; "y"; "z"]
    end ∧
  getCacheData alice_both_cached "alice" "app" "view" =
    getCacheData alice_cached "alice" "app" "view" ∧
  xyz_decisions !! "x" =
    Some (EnforceByEmail [RString "alice"; RString "app"; RString "view";
                          RString "x"]).
Proof.
  assert (EnforceByEmailInBatch "3" alice_cached "Alice" "app" "view"
            ["x"; "y"; "z"] =
          BatchReturn alice_both_cached xyz_decisions ["x"; "y"; "z"]
                      [["x"]; ["y"]; ["z"]]) as Hrun by run.
  destruct (keys_are_verbatim _ _ _ _ _ _ _ _ _ _ Hrun)
    as (Hkey & _ & _ & _ & Hrem & _ & _ & Hother & Hdec & _).
  split; [exact Hrun|]. split; [exact Hkey|]. split; [exact Hrem|].
  split; [apply Hother; discriminate|].
  apply (Hdec "x"). vm_compute. apply list_elem_of_here.
Defined.

Lemma second_call_hits_cache_witness :
  EnforceByEmailInBatch "3" alice_cached "alice" "app" "view" ["x"; "y"; "z"] =
    BatchReturn alice_cached xyz_decisions [] [].
Proof.
  apply (second_call_hits_cache "3" cache_on ∅ "alice" "app" "view"
           ["x"; "y"; "z"] alice_cached xyz_decisions
           ["x"; "y"; "z"] [["x"]; ["y"]; ["z"]]).
  - reflexivity.
  - run.
  - intros item Hin. each_item Hin; by eexists.
Defined.

Lemma Enforce_string_token_witness :
  (result (Enforce [RString "bad"; RString "app"]) = Return false ∧
   engine_calls (Enforce [RString "bad"; RString "app"]) = []) ∧
  (result (Enforce [RString "noclaims"; RString "app"]) = Return false ∧
   engine_calls (Enforce [RString "noclaims"; RString "app"]) = []) ∧
  (engine_calls (Enforce [RString "Alice@X.io"; RString "app"; RString "ok"]) =
     [[RString "alice@x.io"; RString "app"; RString "ok"]] ∧
   result (Enforce [RString "Alice@X.io"; RString "app"; RString "ok"]) =
     Return true) ∧
  (engine_calls (Enforce [RString ""; RString "app"; RString "boom"]) =
     [[RString "admin"; RString "app"; RString "boom"]] ∧
   result (Enforce [RString ""; RString "app"; RString "boom"]) = Return false).
Proof.
  split; [|split; [|split]].
  - apply (Enforce_string_token "bad" [RString "app"]). reflexivity.
  - apply (Enforce_string_token "noclaims" [RString "app"] : _ ∧ _ ∧ _ ∧ _ ∧ _)
      with (claims := ("noclaims" : @Claims sample)); reflexivity.
  - apply (proj2 (proj2 (proj2 (proj2
        (Enforce_string_token "Alice@X.io" [RString "app"; RString "ok"]))))
        ("Alice@X.io" : @Claims sample) ("Alice@X.io" : @MapClaimsT sample));
      reflexivity.
  - apply (proj2 (proj2 (proj2 (proj2
        (Enforce_string_token "" [RString "app"; RString "boom"]))))
        ("" : @Claims sample) ("" : @MapClaimsT sample)); reflexivity.
Defined.

Lemma EnforceErr_spec_witness :
  EnforceErr [RString "bad"; RString "app"; RInt 7] =
    Return (Some {| code := PermissionDenied;
                    message := "permission denied: app, %!s(int=7)" |}) ∧
  EnforceErr [] =
    Return (Some {| code := PermissionDenied; message := "permission denied" |}) ∧
  EnforceErr [RString "alice"; RString "app"; RString "ok"] = Return None.
Proof.
  split; [|split].
  - apply (proj1 (proj2 (EnforceErr_spec [RString "bad"; RString "app"; RInt 7])));
      [reflexivity|discriminate].
  - apply (proj2 (proj2 (EnforceErr_spec []))). reflexivity.
  - apply (proj1 (EnforceErr_spec [RString "alice"; RString "app"; RString "ok"])).
    reflexivity.
Defined.

Lemma InvalidateCache_spec_witness :
  lock alice_cached !! getLockKey "alice" ≠ Some true ∧
  ∃ e',
    InvalidateCache alice_cached "alice" = InvalidateReturn e' true ∧
    getCacheData e' "alice" "app" "view" = None ∧
    ∃ e'' result workers,
      EnforceByEmailInBatch "3" e' "alice" "app" "view" ["x"; "y"; "z"] =
        BatchReturn e'' result ["x"; "y"; "z"] workers ∧
      Z.of_nat (length workers) = 3 ∧
      concat workers = ["x"; "y"; "z"] ∧
      result !! "x" =
        Some (EnforceByEmail [RString (ToLower "alice"); RString "app";
                              RString "view"; RString "x"]).
Proof.
  assert (lock alice_cached !! getLockKey "alice" ≠ Some true) as Hfree
    by (vm_compute; discriminate).
  split; [exact Hfree|].
  destruct (InvalidateCache_spec alice_cached "alice" Hfree)
    as (e' & r & Hinv & _ & Htrue & _ & _ & Hnone & Hnext).
  assert (r = true) as -> by (apply Htrue; discriminate).
  exists e'. split; [exact Hinv|]. split; [apply Hnone|].
  destruct (Hnext "3" "app" "view" ["x"; "y"; "z"])
    as (e'' & result & workers & Hrun & _ & Hlen & _ & Hall);
    [vm_compute; discriminate|reflexivity|].
  destruct Hall as [Hcover Hdec]; [left; exists 1; reflexivity|].
  exists e'', result, workers. split; [exact Hrun|]. split; [exact Hlen|].
  split; [exact Hcover|]. apply Hdec, list_elem_of_here.
Defined.

(** C6, as stated, fails: with the batch size 0 the call that follows the
    invalidation finds nothing cached, yet dispatches no worker and decides
    no item of the request. *)
Lemma invalidate_then_batch_size_zero :
  InvalidateCache alice_cached "alice" = InvalidateReturn cache_on true ∧
  EnforceByEmailInBatch "0" cache_on "alice" "app" "view" ["x"; "y"; "z"] =
    BatchReturn
      {| lock := ∅; Cache := Some {[ "alice" := {[ "app$$view" := ∅ ]} ]} |}
      ∅ ["x"; "y"; "z"] [] ∧
  ¬ (∃ e'' result workers,
       EnforceByEmailInBatch "0" cache_on "alice" "app" "view" ["x"; "y"; "z"] =
         BatchReturn e'' result ["x"; "y"; "z"] workers ∧
       concat workers = ["x"; "y"; "z"]).
Proof.
  assert (EnforceByEmailInBatch "0" cache_on "alice" "app" "view" ["x"; "y"; "z"] =
    BatchReturn
      {| lock := ∅; Cache := Some {[ "alice" := {[ "app$$view" := ∅ ]} ]} |}
      ∅ ["x"; "y"; "z"] []) as Hrun by run.
  split; [run|]. split; [exact Hrun|].
  intros (e'' & result & workers & Hzero & Hcover).
  rewrite Hrun in Hzero. by simplify_eq.
Qed.

Lemma lock_handle_removed_witness :
  lock (getEnforcerCacheLock cache_on "alice").1 !! getLockKey "alice" = Some false ∧
  lock alice_cached !! getLockKey "alice" = None.
Proof.
  destruct (lock_handle_removed "3" cache_on "alice" "app" "view" ["x"; "y"; "z"])
    as (Hcreate & Hbatch & _ & _).
  split; [apply Hcreate; reflexivity|].
  assert (EnforceByEmailInBatch "3" cache_on "alice" "app" "view" ["x"; "y"; "z"] =
    BatchReturn alice_cached xyz_decisions ["x"; "y"; "z"] [["x"]; ["y"]; ["z"]])
    as Hrun by run.
  rewrite Hrun in Hbatch. apply Hbatch.
Defined.

Lemma batch_size_zero_witness :
  configuredBatchSize "0" = 0 ∧
  configuredBatchSize "none" = 1 ∧
  ∃ e' result remaining,
    EnforceByEmailInBatch "0" cache_on "alice" "app" "view" ["x"; "y"] =
      BatchReturn e' result remaining [] ∧
    ("x" ∈ remaining ∧ result !! "x" = None) ∧
    ("y" ∈ remaining ∧ result !! "y" = None).
Proof.
  destruct (batch_size_zero "0" cache_on "alice" "app" "view" ["x"; "y"])
    as (Hparsed & _ & Hzero).
  destruct (batch_size_zero "none" cache_on "alice" "app" "view" ["x"; "y"])
    as (_ & Hdefault & _).
  split; [apply Hparsed; reflexivity|].
  split; [apply Hdefault; reflexivity|].
  destruct Hzero as (e' & result & remaining & Hrun & _ & Hrem);
    [reflexivity|vm_compute; discriminate|].
  exists e', result, remaining. split; [exact Hrun|].
  split; apply Hrem; try reflexivity.
  - apply list_elem_of_here.
  - apply list_elem_of_further, list_elem_of_here.
Defined.

End Runs.

(** * Further properties of the code *)

(** ** More on the wildcard matcher *)

Section MatcherMore.

Lemma get_Some_lt s i c : String.get i s = Some c → (i < String.length s)%nat.
Proof.
  revert i. induction s as [|a s IH]; intros [|i]; simpl; try done; [lia|].
  intros Hg%IH. lia.
Qed.

Lemma substring_0_whole s n :
  (String.length s <= n)%nat → String.substring 0 n s = s.
Proof.
  revert n. induction s as [|a s IH]; intros [|n]; simpl; try done; [lia|].
  intros Hn. f_equal. apply IH. lia.
Qed.

Lemma length_substring_0 s n :
  (n <= String.length s)%nat → String.length (String.substring 0 n s) = n.
Proof.
  revert n. induction s as [|a s IH]; intros [|n]; simpl; try done; [lia|].
  intros Hn. f_equal. apply IH. lia.
Qed.

Lemma no_star_Index q : no_star q ↔ Index q "*" = -1.
Proof.
  split; [|apply Index_absent].
  intros Hno. destruct (Index_range q "*") as [|Hr]; [done|].
  destruct (first_star_at_not_no_star q _ (Index_first q ltac:(lia)) Hno).
Qed.

(** The characters of a segment are characters of the string split. *)
Lemma Split_segment_chars s seg i c :
  seg ∈ Split s "/" → String.get i seg = Some c → ∃ k, String.get k s = Some c.
Proof.
  revert seg i. induction s as [|a s IH]; intros seg i; simpl.
  - intros ->%list_elem_of_singleton. by destruct i.
  - pose proof (Split_nonempty s "/") as Hne.
    destruct (Ascii.eqb_spec a "/") as [->|Hna].
    + intros [->|Hin]%elem_of_cons Hg; [by destruct i|].
      destruct (IH _ _ Hin Hg) as [k Hk]. by exists (S k).
    + destruct (Split s "/") as [|h t] eqn:Hs; [done|].
      intros [->|Hin]%elem_of_cons Hg.
      * destruct i as [|i]; simpl in Hg; [by exists 0%nat|].
        destruct (IH h i ltac:(by left) Hg) as [k Hk]. by exists (S k).
      * destruct (IH seg i ltac:(by right) Hg) as [k Hk]. by exists (S k).
Qed.

Lemma MatchKeyByPart_parts path pattern :
  MatchKeyByPart path pattern = true ↔
  pattern = "*" ∨
  (length (Split path "/") = length (Split pattern "/") ∧
   match_parts (Split path "/") (Split pattern "/") = true).
Proof.
  unfold MatchKeyByPart.
  destruct (String.eqb_spec pattern "*") as [->|Hstar]; [naive_solver|].
  destruct (Nat.eqb_spec (length (Split path "/")) (length (Split pattern "/")))
    as [Hlen|Hlen]; simpl; [|naive_solver].
  destruct (Nat.eqb_spec (length (Split path "/")) 0) as [Hz|Hz]; [|naive_solver].
  pose proof (Split_nonempty path "/"). by destruct (Split path "/").
Qed.

(** X1. A pattern segment with a wildcard matches exactly the non-empty path
    segments that start with what precedes its first ["*"]; what follows
    the ["*"] in the pattern segment plays no part. *)
Theorem wildcard_segment_is_prefix_match p q j :
  first_star_at q j →
  match_part p q = true ↔
    p ≠ "" ∧ String.prefix (String.substring 0 j q) p = true.
Proof.
  intros Hfirst. pose proof Hfirst as [Hget _].
  pose proof (get_Some_lt _ _ _ Hget) as Hj.
  assert (q ≠ "") as Hq by (intros ->; by destruct j).
  rewrite match_part_spec, String.prefix_correct.
  rewrite length_substring_0 by lia.
  split.
  - intros (Hp & _ & _ & Hlong & Hshort). split; [done|].
    destruct (Nat.lt_ge_cases j (String.length p)) as [Hlen|Hlen].
    + by apply Hlong.
    + rewrite substring_0_whole by lia. apply Hshort; [done|lia].
  - intros [Hp Hpre]. repeat split; try done.
    + intros Hno. by destruct (first_star_at_not_no_star _ _ Hfirst).
    + intros j' Hj' _. by rewrite (first_star_at_unique _ _ _ Hj' Hfirst).
    + intros j' Hj' Hle. rewrite (first_star_at_unique _ _ _ Hj' Hfirst) in *.
      by rewrite substring_0_whole in Hpre by lia.
Qed.

Lemma match_part_refl q : match_part q q = true ↔ q ≠ "".
Proof.
  rewrite match_part_spec. split; [naive_solver|].
  intros Hq. repeat split; try done.
  intros j [Hget _] Hle. apply get_Some_lt in Hget. lia.
Qed.

Lemma match_parts_refl qs :
  match_parts qs qs = true ↔ Forall (λ s, s ≠ "") qs.
Proof.
  induction qs as [|q qs IH]; simpl; [by split|].
  rewrite Forall_cons, <- IH, <- match_part_refl.
  destruct (match_part q q); naive_solver.
Qed.

(** X2. A path matches itself used as a pattern exactly when none of its
    segments is empty (or it is ["*"]): wildcards in it do not matter. *)
Theorem MatchKeyByPart_refl p :
  MatchKeyByPart p p = true ↔ p = "*" ∨ Forall (λ s, s ≠ "") (Split p "/").
Proof. rewrite MatchKeyByPart_parts, match_parts_refl. naive_solver. Qed.

Lemma match_parts_no_star ps qs :
  length ps = length qs → Forall no_star qs →
  match_parts ps qs = true ↔ ps = qs ∧ Forall (λ s, s ≠ "") qs.
Proof.
  intros Hlen Hno. rewrite match_parts_spec by done. split.
  - intros (_ & Hq & Hok). split; [|done].
    apply list_eq_Forall2. clear Hlen Hq.
    induction Hok as [|p q ps qs Hpq _ IH]; [done|].
    apply Forall_cons in Hno as [Hnq Hno]. constructor; [|by apply IH].
    by apply Hpq.
  - intros [-> Hq]. repeat split; try done.
    apply Forall_Forall2_diag. eapply Forall_impl; [exact Hno|].
    intros q Hnq. repeat split; try done;
      intros j Hj; by destruct (first_star_at_not_no_star _ _ Hj).
Qed.

(** X3. A pattern without any ["*"] matches only itself, and only when none of
    its segments is empty. *)
Theorem MatchKeyByPart_without_wildcard path pattern :
  no_star pattern →
  MatchKeyByPart path pattern = true ↔
    path = pattern ∧ Forall (λ s, s ≠ "") (Split pattern "/").
Proof.
  intros Hno.
  assert (pattern ≠ "*") as Hstar by (intros ->; by destruct (Hno 0%nat)).
  assert (Forall no_star (Split pattern "/")) as Hsegs.
  { apply Forall_forall. intros seg Hin i Hg.
    destruct (Split_segment_chars _ _ _ _ Hin Hg) as [k Hk]. by destruct (Hno k). }
  rewrite MatchKeyByPart_parts. split.
  - intros [->|[Hlen Hm]]; [done|].
    apply match_parts_no_star in Hm as [Heq Hne]; [|done..].
    split; [|done]. by rewrite <- (Join_Split path), Heq, Join_Split.
  - intros [-> Hne]. right. split; [done|]. by apply match_parts_no_star.
Qed.

End MatcherMore.

(** ** More on the single-decision evaluator *)

Section EnforceMore.
Context `{Collaborators}.

(** X5. On a token that verifies, [Enforce] answers what [EnforceByEmail]
    answers for the normalized identity and the same further arguments. *)
Theorem Enforce_is_EnforceByEmail_on_identity token rest claims mapClaims :
  VerifyToken token = Some claims →
  MapClaims claims = Some mapClaims →
  result (Enforce (RString token :: rest)) =
    Return (EnforceByEmail (RString (normalized_identity mapClaims) :: rest)).
Proof.
  intros Hv Hm. unfold Enforce. by rewrite (enforce_success _ _ _ _ Hv Hm).
Qed.

(** X6. [Enforce] writes to the caller's slice only at index 0, and only when it
    goes on to call the engine; the engine is called at most once, with the
    slice as [Enforce] leaves it. *)
Theorem Enforce_overwrites_first_only rvals :
  length (rvals_after (Enforce rvals)) = length rvals ∧
  tail (rvals_after (Enforce rvals)) = tail rvals ∧
  (engine_calls (Enforce rvals) = [] ∧ rvals_after (Enforce rvals) = rvals ∨
   engine_calls (Enforce rvals) = [rvals_after (Enforce rvals)] ∧
   ∃ token identity rest,
     rvals = RString token :: rest ∧
     rvals_after (Enforce rvals) = RString identity :: rest).
Proof.
  unfold Enforce, enforce.
  destruct rvals as [|[token| |] rest]; simpl; try (by repeat split; auto).
  destruct (VerifyToken token) as [claims|]; simpl; [|by repeat split; auto].
  destruct (MapClaims claims) as [mapClaims|]; simpl; [|by repeat split; auto].
  repeat split. right. split; [done|]. by eexists _, _, _.
Qed.

(** X7. The error of [EnforceErr] is built from the arguments after the first
    alone: two denied requests that differ only in their first argument get
    the same error, so the token never shows in the message. *)
Theorem EnforceErr_error_ignores_first first1 first2 rest err1 err2 :
  EnforceErr (first1 :: rest) = Return (Some err1) →
  EnforceErr (first2 :: rest) = Return (Some err2) →
  err1 = err2 ∧
  message err1 = "permission denied: " +:+ Join (Sprintf_s <$> rest) ", ".
Proof.
  unfold EnforceErr, Enforce. intros H1 H2.
  pose proof (enforce_tail_unchanged (first1 :: rest)) as Ht1.
  pose proof (enforce_tail_unchanged (first2 :: rest)) as Ht2.
  destruct (result (enforce (first1 :: rest))) as [[]|]; [done| |done].
  destruct (result (enforce (first2 :: rest))) as [[]|]; [done| |done].
  simpl in *. rewrite Ht1 in H1. rewrite Ht2 in H2. by simplify_eq.
Qed.

End EnforceMore.

(** ** More on the cache and the lock table *)

Section CacheMore.
Context `{Collaborators}.

Implicit Types (e : EnforcerImpl) (emailId resource action : string).

Lemma getCacheData_ext e1 e2 emailId resource action :
  Cache e1 = Cache e2 →
  getCacheData e1 emailId resource action = getCacheData e2 emailId resource action.
Proof. intros Hc. unfold getCacheData. by rewrite Hc. Qed.

Lemma getCacheData_store e emailId resource action result emailId' resource' action' :
  getCacheData (storeCacheData e emailId resource action result)
               emailId' resource' action' =
    if decide (is_Some (Cache e) ∧ emailId' = emailId ∧
               getCacheKey resource' action' = getCacheKey resource action)
    then Some result
    else getCacheData e emailId' resource' action'.
Proof.
  unfold getCacheData, storeCacheData.
  destruct (Cache e) as [c|] eqn:Hc; simpl.
  - destruct (decide (emailId' = emailId)) as [->|Hid].
    + rewrite lookup_insert_eq.
      destruct (decide (getCacheKey resource' action' = getCacheKey resource action))
        as [->|Hkey].
      * rewrite lookup_insert_eq. by rewrite decide_True.
      * rewrite lookup_insert_ne by done. rewrite decide_False by naive_solver.
        by destruct (c !! emailId).
    + rewrite lookup_insert_ne by done. by rewrite decide_False by naive_solver.
  - by rewrite Hc.
Qed.

(** X8. The cache key of a resource and an action determines both, provided the
    resources hold no ["$"]. *)
Theorem getCacheKey_inj resource1 action1 resource2 action2 :
  (∀ i, String.get i resource1 ≠ Some "$"%char) →
  (∀ i, String.get i resource2 ≠ Some "$"%char) →
  getCacheKey resource1 action1 = getCacheKey resource2 action2 →
  resource1 = resource2 ∧ action1 = action2.
Proof.
  unfold getCacheKey. revert resource2.
  induction resource1 as [|c1 r1 IH]; intros [|c2 r2] H1 H2 Heq; simpl in *.
  - by simplify_eq.
  - simplify_eq. by destruct (H2 0%nat).
  - simplify_eq. by destruct (H1 0%nat).
  - injection Heq as -> Heq.
    destruct (IH r2) as [-> ->]; [| |done|done].
    + intros i. apply (H1 (S i)).
    + intros i. apply (H2 (S i)).
Qed.

(** X9. The handle of an identity is created once: asking again returns the
    same table and the same mutex, and no other key of the table changes.
    Taking and releasing the mutex of a key that had no handle gives the
    enforcer back as it was. *)
Theorem getEnforcerCacheLock_reuses_handle e emailId :
  getEnforcerCacheLock (getEnforcerCacheLock e emailId).1 emailId =
    getEnforcerCacheLock e emailId ∧
  (∀ m, lock e !! getLockKey emailId = Some m →
        getEnforcerCacheLock e emailId = (e, m)) ∧
  (∀ other, other ≠ getLockKey emailId →
        lock (getEnforcerCacheLock e emailId).1 !! other = lock e !! other) ∧
  Cache (getEnforcerCacheLock e emailId).1 = Cache e ∧
  (lock e !! getLockKey emailId = None →
     clearCacheLock (acquire (getEnforcerCacheLock e emailId).1 emailId) emailId = e).
Proof.
  unfold getEnforcerCacheLock.
  destruct (lock e !! getLockKey emailId) as [m|] eqn:Hl; simpl.
  - rewrite Hl. repeat split; try done. by intros ? [= ->].
  - rewrite lookup_insert_eq. repeat split; try done.
    + intros other Hne. by rewrite lookup_insert_ne.
    + intros _. unfold clearCacheLock, acquire. simpl.
      rewrite !delete_insert_eq, delete_id by done. by destruct e.
Qed.

(** X10. [InvalidateCache] is idempotent, and invalidating two identities gives
    the same enforcer in either order. *)
Theorem InvalidateCache_idempotent_commutes e emailId1 emailId2 :
  lock e !! getLockKey emailId1 ≠ Some true →
  lock e !! getLockKey emailId2 ≠ Some true →
  ∃ e1 e2 e12 r,
    InvalidateCache e emailId1 = InvalidateReturn e1 r ∧
    InvalidateCache e emailId2 = InvalidateReturn e2 r ∧
    InvalidateCache e1 emailId1 = InvalidateReturn e1 r ∧
    InvalidateCache e1 emailId2 = InvalidateReturn e12 r ∧
    InvalidateCache e2 emailId1 = InvalidateReturn e12 r.
Proof.
  intros Hf1 Hf2.
  assert (∀ (l : gmap string bool) k k', l !! k ≠ Some true →
            delete k' l !! k ≠ Some true) as Hdel.
  { intros l k k' Hk. destruct (decide (k' = k)) as [->|Hne].
    - by rewrite lookup_delete_eq.
    - by rewrite lookup_delete_ne. }
  eexists _, _, _, _.
  split; [by apply InvalidateCache_free|].
  split; [by apply InvalidateCache_free|].
  split; [|split].
  - rewrite InvalidateCache_free by (by apply Hdel). simpl.
    rewrite delete_delete_eq. destruct (Cache e); simpl; [|done].
    by rewrite delete_delete_eq.
  - rewrite InvalidateCache_free by (by apply Hdel). simpl.
    f_equal. by destruct (Cache e).
  - rewrite InvalidateCache_free by (by apply Hdel). simpl.
    rewrite (delete_delete (lock e)). destruct (Cache e) as [c|]; simpl; [|done].
    by rewrite (delete_delete c).
Qed.

(** X11. After [InvalidateCompleteCache] no identity has anything cached; the
    lock table and whether caching is enabled are as before, and without a
    cache nothing changes at all. *)
Theorem InvalidateCompleteCache_empties e :
  (∀ emailId resource action,
     getCacheData (InvalidateCompleteCache e) emailId resource action = None) ∧
  lock (InvalidateCompleteCache e) = lock e ∧
  (is_Some (Cache (InvalidateCompleteCache e)) ↔ is_Some (Cache e)) ∧
  (Cache e = None → InvalidateCompleteCache e = e) ∧
  InvalidateCompleteCache (InvalidateCompleteCache e) = InvalidateCompleteCache e.
Proof.
  unfold InvalidateCompleteCache, getCacheData.
  destruct (Cache e) as [c|] eqn:Hc; simpl; rewrite ?Hc; repeat split;
    try done; intros; by rewrite ?lookup_empty.
Qed.

End CacheMore.

(** ** More on the batch evaluator *)

Section BatchMore.
Context `{Collaborators}.

Implicit Types (e : EnforcerImpl) (emailId resource action : string).
Implicit Types (vals : list string) (result : gmap string bool).

Local Abbreviation decision emailId resource action item :=
  (EnforceByEmail [RString (ToLower emailId); RString resource;
                   RString action; RString item]).

(** Whatever the shard count, a worker is only ever handed items of the
    list. *)
Lemma dispatch_items batchSize vals workers item :
  dispatch batchSize vals = Some workers →
  item ∈ concat workers → item ∈ vals.
Proof.
  unfold dispatch. intros Hd%mapM_Some_1. revert Hd.
  generalize (seq 0 (Z.to_nat batchSize)). intros idxs Hd.
  induction Hd as [|i w idxs ws Hw _ IH]; simpl; [by intros ?%elem_of_nil|].
  intros [Hin|Hin]%elem_of_app; [|by apply IH].
  destruct (shard_bounds _ _ _) as [startIndex endIndex].
  unfold slice in Hw. case_match; [|done]. injection Hw as <-.
  by apply subseteq_take, subseteq_drop in Hin.
Qed.

Lemma shard_starts_apart (i : nat) totalSize batchSize :
  0 <= totalSize → 0 < batchSize →
  (Z.to_nat (Z.of_nat i * totalSize / batchSize) + Z.to_nat (totalSize / batchSize)
   <= Z.to_nat (Z.of_nat (S i) * totalSize / batchSize))%nat.
Proof.
  intros Ht Hn.
  assert (0 <= Z.of_nat i * totalSize / batchSize) by (apply Z.div_pos; lia).
  assert (0 <= totalSize / batchSize) by (apply Z.div_pos; lia).
  assert (Z.of_nat i * totalSize / batchSize + totalSize / batchSize
          <= Z.of_nat (S i) * totalSize / batchSize); [|lia].
  apply Z.div_le_lower_bound; [lia|].
  pose proof (Z.mul_div_le (Z.of_nat i * totalSize) batchSize ltac:(lia)).
  pose proof (Z.mul_div_le totalSize batchSize ltac:(lia)).
  lia.
Qed.

Lemma blocks_sublist (start : nat → nat) (q : nat) vals (k m base : nat) :
  (∀ i, (start i + q <= start (S i))%nat) → (base <= start k)%nat →
  concat ((λ i, take q (drop (start i) vals)) <$> seq k m)
    `sublist_of` drop base vals.
Proof.
  intros Hstep. revert k base. induction m as [|m IH]; intros k base Hbase; simpl.
  - apply sublist_nil_l.
  - trans (drop (start k) vals).
    + rewrite <- (take_drop q (drop (start k) vals)) at 2.
      apply sublist_app; [done|]. rewrite drop_drop.
      apply IH. apply Hstep.
    + replace (start k) with (base + (start k - base))%nat by lia.
      rewrite <- drop_drop. apply sublist_drop.
Qed.

(** X12. The shards never overlap: the items handed to the workers, in the order
    of dispatch, are a subsequence of the item list, each position of the
    list being used at most once.  They are the whole list exactly when the
    shard count divides the number of items. *)
Theorem dispatch_partition batchSize vals workers :
  0 < batchSize <= Z.of_nat (length vals) → Z.of_nat (length vals) < 2 ^ 31 →
  dispatch batchSize vals = Some workers →
  concat workers `sublist_of` vals ∧
  (concat workers = vals ↔ (batchSize | Z.of_nat (length vals))).
Proof.
  intros Hn Ht Hd. split.
  - rewrite dispatch_explicit in Hd by done. injection Hd as <-.
    apply (blocks_sublist
             (λ i, Z.to_nat (Z.of_nat i * Z.of_nat (length vals) / batchSize))
             (Z.to_nat (Z.of_nat (length vals) / batchSize)) vals 0 _ 0%nat);
      [|lia].
    intros i. apply shard_starts_apart; lia.
  - split.
    + intros Hall.
      destruct (decide (Z.of_nat (length vals) mod batchSize = 0)) as [Hz|Hnz];
        [apply Z.mod_divide; [lia|done]|].
      assert (¬ (batchSize | Z.of_nat (length vals))) as Hndiv
        by (intros Hdiv; apply Hnz, Z.mod_divide; [lia|done]).
      pose proof (dispatch_drops_items _ _ _ Hn Ht Hndiv Hd) as Hlt.
      rewrite Hall in Hlt. lia.
    + intros Hdiv. by eapply dispatch_divisible.
Qed.

Lemma remaining_requested env e emailId resource action vals
    e' result remaining workers item :
  EnforceByEmailInBatch env e emailId resource action vals =
    BatchReturn e' result remaining workers →
  item ∈ remaining ↔
    item ∈ vals ∧
    default ∅ (getCacheData e emailId resource action) !! item = None.
Proof.
  intros Hret.
  destruct (BatchReturn_inv _ _ _ _ _ _ _ _ _ _ Hret) as (_ & -> & _).
  destruct (getCacheData e emailId resource action) as [cached|]; simpl.
  - rewrite list_elem_of_filter. tauto.
  - rewrite lookup_empty. tauto.
Qed.

(** X13. A returning call writes its mapping through: afterwards the cache, when
    there is one, answers with that mapping for the identity and any
    resource and action with the same cache key, and with what it held
    before for every other identity, resource and action. *)
Theorem batch_writes_through env e emailId resource action vals
    e' result remaining workers :
  EnforceByEmailInBatch env e emailId resource action vals =
    BatchReturn e' result remaining workers →
  ∀ emailId' resource' action',
    getCacheData e' emailId' resource' action' =
      if decide (is_Some (Cache e) ∧ emailId' = emailId ∧
                 getCacheKey resource' action' = getCacheKey resource action)
      then Some result
      else getCacheData e emailId' resource' action'.
Proof.
  intros Hret emailId' resource' action'.
  destruct (BatchReturn_inv _ _ _ _ _ _ _ _ _ _ Hret) as (_ & _ & _ & _ & _ & ->).
  rewrite <- getCacheData_store. by apply getCacheData_ext.
Qed.

(** X14. A decision found in the cache is reused: the item is not handed to any
    worker and the mapping returned holds the cached decision, also for
    items the call did not ask for. *)
Theorem cached_decisions_reused env e emailId resource action vals
    e' result remaining workers cached item b :
  EnforceByEmailInBatch env e emailId resource action vals =
    BatchReturn e' result remaining workers →
  getCacheData e emailId resource action = Some cached →
  cached !! item = Some b →
  (item ∉ remaining) ∧ (item ∉ concat workers) ∧ result !! item = Some b.
Proof.
  intros Hret Hcached Hitem.
  pose proof (remaining_requested _ _ _ _ _ _ _ _ _ _ item Hret) as Hrem.
  destruct (BatchReturn_inv _ _ _ _ _ _ _ _ _ _ Hret)
    as (_ & _ & _ & Hd & Hres & _).
  rewrite Hcached in Hrem, Hres. simpl in *.
  assert (item ∉ remaining) as Hnot by (rewrite Hrem, Hitem; naive_solver).
  assert (item ∉ concat workers) as Hnw
    by (intros Hin; by apply Hnot, (dispatch_items _ _ _ _ Hd)).
  split; [done|]. split; [done|].
  by rewrite Hres, merged_lookup, decide_False.
Qed.

(** X15. Every entry of the mapping returned is either the decision of the engine
    for an uncached item of the request that was handed to a worker, or an
    entry of the cached mapping. *)
Theorem result_provenance env e emailId resource action vals
    e' result remaining workers item b :
  EnforceByEmailInBatch env e emailId resource action vals =
    BatchReturn e' result remaining workers →
  result !! item = Some b →
  (item ∈ concat workers ∧ item ∈ vals ∧
   default ∅ (getCacheData e emailId resource action) !! item = None ∧
   b = decision emailId resource action item) ∨
  ((item ∉ concat workers) ∧
   default ∅ (getCacheData e emailId resource action) !! item = Some b).
Proof.
  intros Hret Hb.
  pose proof (remaining_requested _ _ _ _ _ _ _ _ _ _ item Hret) as Hrem.
  destruct (BatchReturn_inv _ _ _ _ _ _ _ _ _ _ Hret)
    as (_ & _ & _ & Hd & Hres & _).
  rewrite Hres, merged_lookup in Hb. case_decide as Hin.
  - left. pose proof (dispatch_items _ _ _ _ Hd Hin) as Hreq.
    apply Hrem in Hreq as [Hv Hnone]. by simplify_eq.
  - by right.
Qed.

(** X16. When the configured batch size divides the number of uncached items, or
    is at least that number (one item per worker), a returning call hands
    every uncached item to a worker and returns, for every requested item,
    its cached decision if it had one and the decision of the engine
    otherwise. *)
Theorem batch_decides_every_item env e emailId resource action vals
    e' result remaining workers :
  EnforceByEmailInBatch env e emailId resource action vals =
    BatchReturn e' result remaining workers →
  Z.of_nat (length remaining) < 2 ^ 31 →
  (configuredBatchSize env | Z.of_nat (length remaining)) ∨
  Z.of_nat (length remaining) <= configuredBatchSize env →
  concat workers = remaining ∧
  ∀ item, item ∈ vals →
    result !! item =
      Some match default ∅ (getCacheData e emailId resource action) !! item with
           | Some b => b
           | None => decision emailId resource action item
           end.
Proof.
  intros Hret Hlen Hsize.
  assert (Z.min (configuredBatchSize env) (Z.of_nat (length remaining))
          | Z.of_nat (length remaining)) as Hdiv.
  { destruct (Z.le_gt_cases (Z.of_nat (length remaining)) (configuredBatchSize env)).
    - by rewrite Z.min_r.
    - rewrite Z.min_l by lia. destruct Hsize; [done|lia]. }
  pose proof (workers_cover_when_divisible _ _ _ _ _ _ _ _ _ _ Hret Hlen Hdiv)
    as Hcover.
  split; [done|]. intros item Hin.
  pose proof (remaining_requested _ _ _ _ _ _ _ _ _ _ item Hret) as Hrem.
  destruct (BatchReturn_inv _ _ _ _ _ _ _ _ _ _ Hret)
    as (_ & _ & _ & _ & Hres & _).
  rewrite Hres, merged_lookup, Hcover.
  destruct (default ∅ (getCacheData e emailId resource action) !! item) as [b|]
    eqn:Hc.
  - rewrite decide_False; [done|]. rewrite Hrem. naive_solver.
  - by rewrite decide_True by (by apply Hrem).
Qed.

(** X17. With a positive batch size a returning call always decides the first of
    the uncached items: a repeated call has fewer items left to evaluate. *)
Theorem batch_progress env e emailId resource action vals
    e' result item rest workers :
  EnforceByEmailInBatch env e emailId resource action vals =
    BatchReturn e' result (item :: rest) workers →
  0 < configuredBatchSize env →
  Z.of_nat (length (item :: rest)) < 2 ^ 31 →
  workers ≠ [] ∧ result !! item = Some (decision emailId resource action item).
Proof.
  intros Hret Hpos Hlen.
  destruct (BatchReturn_inv _ _ _ _ _ _ _ _ _ _ Hret)
    as (_ & _ & _ & Hd & Hres & _).
  set (total := Z.of_nat (length (item :: rest))) in *.
  set (n := Z.min (configuredBatchSize env) total) in *.
  assert (0 < total) as Htotal by (unfold total; simpl; lia).
  assert (0 < n <= total) as Hn by lia.
  rewrite dispatch_explicit in Hd by done. injection Hd as <-.
  fold total.
  destruct (Z.to_nat n) as [|k] eqn:Hk; [lia|]. simpl.
  assert (1 <= total / n) as Hq by (apply Z.div_le_lower_bound; lia).
  destruct (Z.to_nat (total / n)) as [|q] eqn:Hqn; [lia|].
  split; [done|]. rewrite Hres, merged_lookup. rewrite decide_True; [done|].
  simpl. apply elem_of_app. left.
  change (Z.of_nat (S (length rest))) with total. rewrite Hqn.
  apply list_elem_of_here.
Qed.

(** X18. With a negative batch size no worker is dispatched and the call is
    decided by the low 32 bits of the size, which is what the wait group
    counts: when they are negative as a signed number the call panics in
    [wg.Add] and the deferred release removes the handle; when they are
    positive the call never leaves [wg.Wait] and keeps the handle locked;
    when they are zero the call returns the cached mapping alone. *)
Theorem negative_batch_size env e emailId resource action vals :
  configuredBatchSize env < 0 →
  lock e !! getLockKey emailId ≠ Some true →
  EnforceByEmailInBatch env e emailId resource action vals =
    let cached := getCacheData e emailId resource action in
    let remaining :=
      match cached with
      | Some result => filter (λ item, result !! item = None) vals
      | None => vals
      end in
    if wrap32 (configuredBatchSize env) <? 0
    then BatchPanic (delete (getLockKey emailId) (lock e))
    else if 0 <? wrap32 (configuredBatchSize env)
    then BatchHang (<[getLockKey emailId := true]> (lock e))
    else BatchReturn
           {| lock := delete (getLockKey emailId) (lock e);
              Cache := Cache (storeCacheData e emailId resource action
                                             (default ∅ cached)) |}
           (default ∅ cached) remaining [].
Proof.
  intros Hneg Hfree. rewrite EnforceByEmailInBatch_free by done. cbn zeta.
  rewrite Z.min_l by lia. rewrite dispatch_nonpos by lia.
  change (Z.of_nat (length (@nil (list string)))) with 0. rewrite Z.sub_0_r.
  destruct (Z.ltb_spec (wrap32 (configuredBatchSize env)) 0); [done|].
  by destruct (Z.ltb_spec 0 (wrap32 (configuredBatchSize env))).
Qed.

(** X19. Without a cache a call leaves the enforcer as it found it, evaluates
    the whole request and returns nothing but the decisions of its workers;
    [InvalidateCache] changes nothing and returns false. *)
Theorem batch_without_cache env e emailId resource action vals
    e' result remaining workers :
  Cache e = None →
  lock e !! getLockKey emailId = None →
  EnforceByEmailInBatch env e emailId resource action vals =
    BatchReturn e' result remaining workers →
  e' = e ∧ remaining = vals ∧
  (∀ item, result !! item =
     if decide (item ∈ concat workers)
     then Some (decision emailId resource action item) else None) ∧
  InvalidateCache e emailId = InvalidateReturn e false.
Proof.
  intros Hc Hl Hret.
  destruct (BatchReturn_inv _ _ _ _ _ _ _ _ _ _ Hret)
    as (_ & Hrem & _ & _ & Hres & He').
  assert (getCacheData e emailId resource action = None) as Hget
    by (unfold getCacheData; by rewrite Hc).
  rewrite Hget in Hrem, Hres. simpl in *.
  split; [|split; [done|split]].
  - rewrite He'. unfold storeCacheData. rewrite Hc, delete_id by done.
    destruct e. simpl in *. by rewrite Hc.
  - intros item. by rewrite Hres, merged_lookup, lookup_empty.
  - rewrite InvalidateCache_free by (by rewrite Hl).
    rewrite Hc, delete_id by done. simpl. destruct e. simpl in *. by rewrite Hc.
Qed.

End BatchMore.

(** ** Invariants of the cache *)

Section CacheInvariants.
Context `{Collaborators}.

Lemma result_sound env e emailId resource action vals
    e' result remaining workers item b :
  cache_sound e →
  EnforceByEmailInBatch env e emailId resource action vals =
    BatchReturn e' result remaining workers →
  result !! item = Some b →
  ∃ resource' action',
    getCacheKey resource' action' = getCacheKey resource action ∧
    b = EnforceByEmail [RString (ToLower emailId); RString resource';
                        RString action'; RString item].
Proof.
  intros Hsound Hret Hb.
  destruct (BatchReturn_inv _ _ _ _ _ _ _ _ _ _ Hret)
    as (_ & _ & _ & _ & Hres & _).
  rewrite Hres, merged_lookup in Hb. case_decide as Hin.
  - exists resource, action. by simplify_eq.
  - unfold getCacheData in Hb.
    destruct (Cache e) as [c|] eqn:Hc; [|done].
    destruct (c !! emailId) as [emailResult|] eqn:Hid; [|done].
    destruct (emailResult !! getCacheKey resource action) as [cached|] eqn:Hkey;
      [|done].
    simpl in Hb. by eapply Hsound.
Qed.

(** X20. The cache only ever holds decisions of the policy engine: the new
    enforcer satisfies [cache_sound], every operation keeps it, and under
    it every decision a batch call returns is the decision of the engine for
    the lower-cased identity, the item, and a resource and action with the
    cache key of the request. *)
Theorem cache_sound_preserved :
  (∀ enableEnforcerCache, cache_sound (NewEnforcerImpl enableEnforcerCache)) ∧
  (∀ env e emailId resource action vals e' result remaining workers,
     cache_sound e →
     EnforceByEmailInBatch env e emailId resource action vals =
       BatchReturn e' result remaining workers →
     cache_sound e' ∧
     ∀ item b, result !! item = Some b →
       ∃ resource' action',
         getCacheKey resource' action' = getCacheKey resource action ∧
         b = EnforceByEmail [RString (ToLower emailId); RString resource';
                             RString action'; RString item]) ∧
  (∀ e emailId e' r,
     cache_sound e → InvalidateCache e emailId = InvalidateReturn e' r →
     cache_sound e') ∧
  (∀ e, cache_sound e → cache_sound (InvalidateCompleteCache e)).
Proof.
  split; [|split; [|split]].
  - intros s c emailId emailResult key cached item b Hc Hid.
    unfold NewEnforcerImpl, checkCacheEnabled in Hc. simpl in Hc.
    repeat case_match; by simplify_eq.
  - intros env e emailId resource action vals e' result remaining workers
      Hsound Hret.
    split; [|intros item b; by eapply result_sound].
    destruct (BatchReturn_inv _ _ _ _ _ _ _ _ _ _ Hret)
      as (_ & _ & _ & _ & _ & ->).
    intros c' emailId0 emailResult0 key0 cached0 item0 b0 Hc' Hid Hkey Hb.
    simpl in Hc'. unfold storeCacheData in Hc'.
    destruct (Cache e) as [c|] eqn:Hc; [|by rewrite Hc in Hc'].
    simpl in Hc'. injection Hc' as <-.
    destruct (decide (emailId0 = emailId)) as [->|Hne].
    + rewrite lookup_insert_eq in Hid. injection Hid as <-.
      destruct (decide (key0 = getCacheKey resource action)) as [->|Hnk].
      * rewrite lookup_insert_eq in Hkey. injection Hkey as <-.
        by eapply result_sound.
      * rewrite lookup_insert_ne in Hkey by done.
        destruct (c !! emailId) as [emailResult|] eqn:Hold; simpl in Hkey;
          [by eapply Hsound|by rewrite lookup_empty in Hkey].
    + rewrite lookup_insert_ne in Hid by done. by eapply Hsound.
  - intros e emailId e' r Hsound Hinv.
    destruct (decide (lock e !! getLockKey emailId = Some true)) as [Hheld|Hfree].
    { by rewrite InvalidateCache_held in Hinv. }
    rewrite InvalidateCache_free in Hinv by done. injection Hinv as <- _.
    intros c' emailId0 emailResult0 key0 cached0 item0 b0 Hc' Hid Hkey Hb.
    simpl in Hc'. destruct (Cache e) as [c|] eqn:Hc; [|done].
    simpl in Hc'. injection Hc' as <-.
    apply lookup_delete_Some in Hid as [_ Hid]. by eapply Hsound.
  - intros e Hsound c' emailId0 emailResult0 key0 cached0 item0 b0 Hc' Hid.
    unfold InvalidateCompleteCache in Hc'.
    destruct (Cache e) as [c|] eqn:Hc; simpl in Hc'; [|by rewrite Hc in Hc'].
    injection Hc' as <-. by rewrite lookup_empty in Hid.
Qed.

(** X21. Whether caching is enabled is fixed when the enforcer is built, by the
    six spellings of true that [strconv.ParseBool] accepts; no operation
    enables or disables it afterwards. *)
Theorem caching_fixed_at_construction :
  (∀ enableEnforcerCache,
     is_Some (Cache (NewEnforcerImpl enableEnforcerCache)) ↔
     enableEnforcerCache ∈ ["1"; "t"; "T"; "TRUE"; "true"; "True"]) ∧
  (∀ enableEnforcerCache,
     lock (NewEnforcerImpl enableEnforcerCache) = ∅ ∧
     ∀ emailId resource action,
       getCacheData (NewEnforcerImpl enableEnforcerCache)
                    emailId resource action = None) ∧
  (∀ env e emailId resource action vals e' result remaining workers,
     EnforceByEmailInBatch env e emailId resource action vals =
       BatchReturn e' result remaining workers →
     (is_Some (Cache e') ↔ is_Some (Cache e))) ∧
  (∀ e emailId e' r,
     InvalidateCache e emailId = InvalidateReturn e' r →
     (is_Some (Cache e') ↔ is_Some (Cache e)) ∧ r = bool_decide (is_Some (Cache e))).
Proof.
  split; [|split; [|split]].
  - intros s. unfold NewEnforcerImpl, checkCacheEnabled, ParseBool. simpl.
    case_bool_decide as Ht; simpl; [by split|].
    case_bool_decide; simpl; split; try done; by intros [? ?].
  - intros s. split; [done|]. intros emailId resource action.
    unfold getCacheData, NewEnforcerImpl, checkCacheEnabled. simpl.
    destruct (ParseBool s) as [[]|]; simpl; by rewrite ?lookup_empty.
  - intros env e emailId resource action vals e' result remaining workers Hret.
    destruct (BatchReturn_inv _ _ _ _ _ _ _ _ _ _ Hret)
      as (_ & _ & _ & _ & _ & ->).
    simpl. unfold storeCacheData.
    destruct (Cache e) eqn:Hc; simpl; by rewrite ?Hc.
  - intros e emailId e' r Hinv.
    destruct (decide (lock e !! getLockKey emailId = Some true)) as [Hheld|Hfree].
    { by rewrite InvalidateCache_held in Hinv. }
    rewrite InvalidateCache_free in Hinv by done. injection Hinv as <- <-.
    simpl. split; [|done]. by destruct (Cache e).
Qed.

End CacheInvariants.

(** ** Instances of the further properties *)

Section MoreRuns.
Local Existing Instance sample.

Local Ltac run := vm_compute; reflexivity.

(** Two different pairs of a resource and an action with one cache key: the
    decisions cached for one pair are handed out for the other. *)
Example cache_key_collision :
  getCacheKey "a$$" "b" = getCacheKey "a" "$$b" ∧
  EnforceByEmailInBatch "3" cache_on "alice" "a" "$$b" ["x"] =
    BatchReturn
      {| lock := ∅;
         Cache := Some {[ "alice" := {[ "a$$$$b" := {[ "x" := true ]} ]} ]} |}
      {[ "x" := true ]} ["x"] [["x"]] ∧
  EnforceByEmailInBatch "3"
      {| lock := ∅;
         Cache := Some {[ "alice" := {[ "a$$$$b" := {[ "x" := true ]} ]} ]} |}
      "alice" "a$$" "b" ["x"] =
    BatchReturn
      {| lock := ∅;
         Cache := Some {[ "alice" := {[ "a$$$$b" := {[ "x" := true ]} ]} ]} |}
      {[ "x" := true ]} [] [].
Proof. repeat split; run. Qed.

Lemma first_star_sample : first_star_at "bc*x" 2.
Proof.
  split; [reflexivity|].
  intros [|[|i]] Hi; simpl; [discriminate|discriminate|lia].
Defined.

Lemma wildcard_segment_is_prefix_match_witness :
  first_star_at "bc*x" 2 ∧
  (match_part "bcd" "bc*x" = true ↔
     "bcd" ≠ "" ∧ String.prefix (String.substring 0 2 "bc*x") "bcd" = true).
Proof.
  split; [exact first_star_sample|].
  exact (wildcard_segment_is_prefix_match "bcd" "bc*x" 2 first_star_sample).
Defined.

Lemma no_star_sample : no_star "a/b".
Proof. intros [|[|[|[|i]]]]; simpl; discriminate. Defined.

Lemma MatchKeyByPart_without_wildcard_witness :
  no_star "a/b" ∧
  (MatchKeyByPart "a/b" "a/b" = true ↔
     "a/b" = "a/b" ∧ Forall (λ s, s ≠ "") (Split "a/b" "/")).
Proof.
  split; [exact no_star_sample|].
  exact (MatchKeyByPart_without_wildcard "a/b" "a/b" no_star_sample).
Defined.

Lemma Enforce_is_EnforceByEmail_on_identity_witness :
  result (Enforce [RString "Alice"; RString "app"; RString "ok"]) =
    Return (EnforceByEmail
              [RString (normalized_identity ("Alice" : @MapClaimsT sample));
               RString "app"; RString "ok"]).
Proof.
  apply (Enforce_is_EnforceByEmail_on_identity "Alice"
           [RString "app"; RString "ok"]
           ("Alice" : @Claims sample) ("Alice" : @MapClaimsT sample));
    reflexivity.
Defined.

Lemma EnforceErr_error_ignores_first_witness :
  {| code := PermissionDenied; message := "permission denied: app" |} =
  {| code := PermissionDenied; message := "permission denied: app" |} ∧
  "permission denied: app" =
    "permission denied: " +:+ Join (Sprintf_s <$> [RString "app"]) ", ".
Proof.
  apply (EnforceErr_error_ignores_first (RString "bad") (RString "noclaims")
           [RString "app"]); reflexivity.
Defined.

Lemma getCacheKey_inj_witness : "app" = "app" ∧ "view" = "view".
Proof.
  apply (getCacheKey_inj "app" "view" "app" "view"); [| |reflexivity];
    intros [|[|[|[|i]]]]; simpl; discriminate.
Defined.

Lemma getEnforcerCacheLock_reuses_handle_witness :
  clearCacheLock (acquire (getEnforcerCacheLock cache_on "alice").1 "alice")
                 "alice" = cache_on.
Proof.
  apply (getEnforcerCacheLock_reuses_handle cache_on "alice"). reflexivity.
Defined.

Lemma InvalidateCache_idempotent_commutes_witness :
  ∃ e1 e2 e12 r,
    InvalidateCache alice_cached "alice" = InvalidateReturn e1 r ∧
    InvalidateCache alice_cached "bob" = InvalidateReturn e2 r ∧
    InvalidateCache e1 "alice" = InvalidateReturn e1 r ∧
    InvalidateCache e1 "bob" = InvalidateReturn e12 r ∧
    InvalidateCache e2 "alice" = InvalidateReturn e12 r.
Proof.
  apply (InvalidateCache_idempotent_commutes alice_cached "alice" "bob");
    vm_compute; discriminate.
Defined.

Lemma InvalidateCompleteCache_empties_witness :
  InvalidateCompleteCache cache_off = cache_off.
Proof.
  apply (InvalidateCompleteCache_empties cache_off); reflexivity.
Defined.

Lemma dispatch_partition_witness :
  concat [["a"; "b"]; ["c"; "d"]] `sublist_of` ["a"; "b"; "c"; "d"; "e"] ∧
  (concat [["a"; "b"]; ["c"; "d"]] = ["a"; "b"; "c"; "d"; "e"] ↔
   (2 | Z.of_nat (length ["a"; "b"; "c"; "d"; "e"]))).
Proof.
  apply (dispatch_partition 2 ["a"; "b"; "c"; "d"; "e"] [["a"; "b"]; ["c"; "d"]]).
  - simpl. lia.
  - simpl. lia.
  - run.
Defined.

Lemma batch_run_sample :
  EnforceByEmailInBatch "3" alice_cached "alice" "app" "view" ["x"; "w"] =
    BatchReturn alice_cached_w xyzw_decisions ["w"] [["w"]].
Proof. run. Defined.

Lemma batch_writes_through_witness :
  getCacheData alice_cached_w "alice" "app" "view" =
    if decide (is_Some (Cache alice_cached) ∧ "alice" = "alice" ∧
               getCacheKey "app" "view" = getCacheKey "app" "view")
    then Some xyzw_decisions
    else getCacheData alice_cached "alice" "app" "view".
Proof.
  exact (batch_writes_through _ _ _ _ _ _ _ _ _ _ batch_run_sample
           "alice" "app" "view").
Defined.

Lemma cached_decisions_reused_witness :
  ("y" ∉ ["w"]) ∧ ("y" ∉ concat [["w"]]) ∧ xyzw_decisions !! "y" = Some false.
Proof.
  apply (cached_decisions_reused _ _ _ _ _ _ _ _ _ _ xyz_decisions "y" false
           batch_run_sample); run.
Defined.

Lemma result_provenance_witness :
  ("w" ∈ concat [["w"]] ∧ "w" ∈ ["x"; "w"] ∧
   default ∅ (getCacheData alice_cached "alice" "app" "view") !! "w" = None ∧
   false = EnforceByEmail [RString (ToLower "alice"); RString "app";
                           RString "view"; RString "w"]) ∨
  (("w" ∉ concat [["w"]]) ∧
   default ∅ (getCacheData alice_cached "alice" "app" "view") !! "w" = Some false).
Proof.
  apply (result_provenance _ _ _ _ _ _ _ _ _ _ "w" false batch_run_sample). run.
Defined.

Lemma batch_decides_every_item_witness :
  concat [["w"]] = ["w"] ∧
  ∀ item, item ∈ ["x"; "w"] →
    xyzw_decisions !! item =
      Some match default ∅ (getCacheData alice_cached "alice" "app" "view") !! item with
           | Some b => b
           | None => EnforceByEmail [RString (ToLower "alice"); RString "app";
                                     RString "view"; RString item]
           end.
Proof.
  apply (batch_decides_every_item _ _ _ _ _ _ _ _ _ _ batch_run_sample).
  - simpl. lia.
  - right. vm_compute. discriminate.
Defined.

Lemma batch_progress_witness :
  [["w"]] ≠ [] ∧
  xyzw_decisions !! "w" =
    Some (EnforceByEmail [RString (ToLower "alice"); RString "app";
                          RString "view"; RString "w"]).
Proof.
  apply (batch_progress _ _ _ _ _ _ _ _ _ _ _ batch_run_sample).
  - vm_compute. reflexivity.
  - simpl. lia.
Defined.

Lemma negative_batch_size_witness :
  EnforceByEmailInBatch "-1" alice_cached "alice" "app" "view" ["x"; "w"] =
    BatchPanic ∅ ∧
  EnforceByEmailInBatch "-2147483649" alice_cached "alice" "app" "view"
                        ["x"; "w"] =
    BatchHang {[ "alice" := true ]} ∧
  EnforceByEmailInBatch "-4294967296" alice_cached "alice" "app" "view"
                        ["x"; "w"] =
    BatchReturn alice_cached xyz_decisions ["w"] [].
Proof.
  split; [|split].
  - etrans; [apply negative_batch_size; [run|vm_compute; discriminate]|run].
  - etrans; [apply negative_batch_size; [run|vm_compute; discriminate]|run].
  - etrans; [apply negative_batch_size; [run|vm_compute; discriminate]|run].
Defined.

Lemma batch_without_cache_witness :
  cache_off = cache_off ∧ ["x"; "y"; "z"] = ["x"; "y"; "z"] ∧
  (∀ item, xyz_decisions !! item =
     if decide (item ∈ concat [["x"]; ["y"]; ["z"]])
     then Some (EnforceByEmail [RString (ToLower "alice"); RString "app";
                                RString "view"; RString item])
     else None) ∧
  InvalidateCache cache_off "alice" = InvalidateReturn cache_off false.
Proof.
  apply (batch_without_cache "3" cache_off "alice" "app" "view" ["x"; "y"; "z"]
           cache_off xyz_decisions ["x"; "y"; "z"] [["x"]; ["y"]; ["z"]]);
    [reflexivity|reflexivity|run].
Defined.

Lemma cache_sound_preserved_witness :
  cache_sound (NewEnforcerImpl "true") ∧ cache_sound alice_cached_w.
Proof.
  destruct cache_sound_preserved as (Hnew & Hbatch & _ & _).
  assert (EnforceByEmailInBatch "3" (NewEnforcerImpl "true") "alice" "app" "view"
            ["x"; "y"; "z"] =
          BatchReturn alice_cached xyz_decisions ["x"; "y"; "z"]
                      [["x"]; ["y"]; ["z"]]) as Hrun1 by run.
  split; [apply Hnew|].
  eapply Hbatch; [|exact batch_run_sample].
  eapply Hbatch; [|exact Hrun1]. apply Hnew.
Defined.

Lemma caching_fixed_at_construction_witness :
  is_Some (Cache (NewEnforcerImpl "true")) ∧
  (is_Some (Cache alice_cached_w) ↔ is_Some (Cache alice_cached)).
Proof.
  destruct caching_fixed_at_construction as (Hnew & _ & Hbatch & _).
  split.
  - apply Hnew. vm_compute. apply list_elem_of_further, list_elem_of_further,
      list_elem_of_further, list_elem_of_further, list_elem_of_here.
  - exact (Hbatch _ _ _ _ _ _ _ _ _ _ batch_run_sample).
Defined.

End MoreRuns.
